(** * rcon: a client for the Source RCON protocol

    Shallow embedding of [rcon.go] and the properties of its packet codec
    and of its session protocol.

    Conventions.
    - A Go [int32] is a [Z] kept in the signed 32-bit range by [wrap32].
    - A Go [string] is a [String.string]; [[]byte(s)] and [string(b)] are
      [list_byte_of_string] and [string_of_list_byte].
    - A function with the named results [(response *Packet, err error)]
      returns the pair of both, each an [option] ([None] is Go's [nil]).
    - A runtime panic is the outcome [Panics]. *)

From Stdlib Require Import ZArith List Bool Lia String.
From Stdlib Require Import Strings.Byte.
Import ListNotations.
Local Open Scope Z_scope.

(** ** Machine integers *)

Module Int32.

Definition modulus : Z := 2 ^ 32.
Definition half : Z := 2 ^ 31.
Definition max_int : Z := half - 1.
Definition min_int : Z := - half.

(** Conversion of an integer to [int32]: the low 32 bits, read as a
    two's complement number. *)
Definition wrap32 (z : Z) : Z := (z + half) mod modulus - half.

Definition in_range (z : Z) : Prop := min_int <= z <= max_int.

Definition sub (x y : Z) : Z := wrap32 (x - y).

End Int32.
Import Int32.

(** ** Bytes and the little-endian byte order of [encoding/binary] *)

Definition byte_of_Z (z : Z) : byte :=
  match Byte.of_N (Z.to_N (z mod 256)) with
  | Some b => b
  | None => x00
  end.

Definition Z_of_byte (b : byte) : Z := Z.of_N (Byte.to_N b).

(** [binary.LittleEndian.PutUint32] applied to [uint32(v)]. *)
Definition PutUint32 (v : Z) : list byte :=
  [ byte_of_Z v;
    byte_of_Z (Z.shiftr v 8);
    byte_of_Z (Z.shiftr v 16);
    byte_of_Z (Z.shiftr v 24) ].

(** [binary.LittleEndian.Uint32]; the slice always has four bytes where it
    is called, a shorter one reads as if padded with zero bytes. *)
Definition Uint32 (bs : list byte) : Z :=
  let b i := Z_of_byte (nth i bs x00) in
  Z.lor (b 0%nat)
    (Z.lor (Z.shiftl (b 1%nat) 8)
       (Z.lor (Z.shiftl (b 2%nat) 16) (Z.shiftl (b 3%nat) 24))).

(** ** Constants of the package *)

Definition packetPaddingSize : Z := 2.
Definition packetHeaderSize : Z := 8.

Definition terminationSequence : byte := x00.

Definition exec : Z := 2.
Definition auth : Z := 3.
Definition authResponse : Z := 2.
Definition responseValue : Z := 0.

(** The package errors, and those of the layers below it: [io.EOF] and
    [io.ErrUnexpectedEOF] come out of [binary.Read], [ErrNet] stands for
    any error of the network layer. *)
Inductive error : Type :=
| ErrInvalidWrite
| ErrInvalidRead
| ErrInvalidChallenge
| ErrUnauthorizedRequest
| ErrFailedAuthorization
| EOF
| ErrUnexpectedEOF
| ErrNet (code : nat).

(** ** Packets *)

Record header : Type := mkHeader {
  size : Z;
  challenge : Z;
  headerType : Z
}.

Record Packet : Type := mkPacket {
  Header : header;
  Body : string
}.

Definition newPacket (challenge typ : Z) (body : string) : Packet :=
  let size :=
    wrap32 (Z.of_nat (List.length (list_byte_of_string body))
            + (packetHeaderSize + packetPaddingSize)) in
  mkPacket (mkHeader size challenge typ) body.

(** *** [bytes.Buffer]

    The buffer is the list of the bytes written so far.  Its writes always
    report a nil error. *)
Definition Buffer : Type := list byte.

Definition Buffer_Write (b : Buffer) (p : list byte) : Buffer * option error :=
  (b ++ p, None).

Definition Buffer_WriteString (b : Buffer) (s : string) : Buffer :=
  b ++ list_byte_of_string s.

(** [binary.Write(w, binary.LittleEndian, &v)] for an [int32]. *)
Definition binary_Write (b : Buffer) (v : Z) : Buffer * option error :=
  Buffer_Write b (PutUint32 v).

Definition compile (this : Packet) : list byte * option error :=
  let size := size (Header this) in
  let buffer : Buffer := [] in
  let padding := repeat x00 (Z.to_nat packetPaddingSize) in
  let '(buffer, err) := binary_Write buffer size in
  match err with
  | Some _ => ([], err)
  | None =>
    let '(buffer, err) := binary_Write buffer (challenge (Header this)) in
    match err with
    | Some _ => ([], err)
    | None =>
      let '(buffer, err) := binary_Write buffer (headerType (Header this)) in
      match err with
      | Some _ => ([], err)
      | None =>
        let buffer := Buffer_WriteString buffer (Body this) in
        let '(buffer, _) := Buffer_Write buffer padding in
        (buffer, None)
      end
    end
  end.

(** ** Outcomes of a call *)

(** A call returns its results, or the goroutine panics. *)
Inductive outcome (A : Type) : Type :=
| Returns (a : A)
| Panics.
Arguments Returns {A} a.
Arguments Panics {A}.

(** [make([]byte, n)]: a negative length is a runtime panic. *)
Definition make (n : Z) : outcome (list byte) :=
  if n <? 0 then Panics else Returns (repeat x00 (Z.to_nat n)).

(** ** Readers

    An [io.Reader] is the script of what its next [Read] calls meet: bytes
    that have arrived together, or a failure.  A [Read] takes bytes of the
    first arrival only, so it may return fewer bytes than the buffer holds.
    A script that has run out stands for a stream at its end. *)
Inductive arrival : Type :=
| Data (bs : list byte)
| Broken (e : error).

Definition stream : Type := list arrival.

(** The bytes read are placed at the front of the buffer. *)
Definition fill (buf bs : list byte) : list byte :=
  bs ++ skipn (List.length bs) buf.

(** [r.Read(buf)], as [(n, err)], the buffer afterwards and the reader
    afterwards.  A read into an empty buffer returns at once. *)
Definition Read (r : stream) (buf : list byte)
  : nat * option error * list byte * stream :=
  match buf with
  | [] => (0%nat, None, buf, r)
  | _ :: _ =>
    match r with
    | [] => (0%nat, Some EOF, buf, [])
    | Broken e :: r' => (0%nat, Some e, buf, r')
    | Data bs :: r' =>
      if (List.length bs <=? List.length buf)%nat
      then (List.length bs, None, fill buf bs, r')
      else (List.length buf, None, firstn (List.length buf) bs,
            Data (skipn (List.length buf) bs) :: r')
    end
  end.

(** The error [io.ReadAtLeast] reports when a [Read] failed after [n]
    bytes. *)
Definition short_error (n : nat) (e : error) : error :=
  match n, e with
  | S _, EOF => ErrUnexpectedEOF
  | _, _ => e
  end.

(** [io.ReadAtLeast]: [Read] until [need] more bytes have come or a [Read]
    fails; [acc] holds the bytes read so far. *)
Fixpoint ReadAtLeast (r : stream) (acc : list byte) (need : nat) {struct r}
  : list byte * option error * stream :=
  match need with
  | O => (acc, None, r)
  | S _ =>
    match r with
    | [] => (acc, Some (short_error (List.length acc) EOF), [])
    | Broken e :: r' => (acc, Some (short_error (List.length acc) e), r')
    | Data bs :: r' =>
      if (List.length bs <=? need)%nat
      then ReadAtLeast r' (acc ++ bs) (need - List.length bs)
      else (acc ++ firstn need bs, None, Data (skipn need bs) :: r')
    end
  end.

Definition ReadFull (r : stream) (n : nat) : list byte * option error * stream :=
  ReadAtLeast r [] n.

(** [binary.Read(r, binary.LittleEndian, &v)] for an [int32]: the variable
    keeps its value when the four bytes cannot be read. *)
Definition binary_Read (r : stream) (v : Z) : Z * option error * stream :=
  let '(bs, err, r) := ReadFull r 4 in
  match err with
  | Some _ => (v, err, r)
  | None => (wrap32 (Uint32 bs), None, r)
  end.

(** ** The connection

    A [net.Conn]: the stream coming from the server, the script of how the
    next [Write] calls end, the log of what has been written, and how many
    times the connection has been closed.  A closed connection fails every
    call. *)
Inductive write_result : Type :=
| WriteAll
| WritePart (n : nat) (err : option error).

Record Conn : Type := mkConn {
  incoming : stream;
  writes : list write_result;
  sent : list (list byte);
  closes : nat
}.

Definition ErrClosed : error := ErrNet 0.

Definition set_incoming (c : Conn) (r : stream) : Conn :=
  mkConn r (writes c) (sent c) (closes c).

Definition conn_Read (c : Conn) (buf : list byte)
  : nat * option error * list byte * Conn :=
  if (0 <? closes c)%nat then (0%nat, Some ErrClosed, buf, c)
  else
    let '(n, err, buf, r) := Read (incoming c) buf in
    (n, err, buf, set_incoming c r).

Definition conn_binary_Read (c : Conn) (v : Z) : Z * option error * Conn :=
  if (0 <? closes c)%nat then (v, Some ErrClosed, c)
  else
    let '(v, err, r) := binary_Read (incoming c) v in
    (v, err, set_incoming c r).

Definition conn_Write (c : Conn) (p : list byte) : nat * option error * Conn :=
  if (0 <? closes c)%nat then (0%nat, Some ErrClosed, c)
  else
    match writes c with
    | [] =>
      (List.length p, None, mkConn (incoming c) [] (sent c ++ [p]) (closes c))
    | WriteAll :: ws =>
      (List.length p, None, mkConn (incoming c) ws (sent c ++ [p]) (closes c))
    | WritePart n err :: ws =>
      let m := Nat.min n (List.length p) in
      (m, err, mkConn (incoming c) ws (sent c ++ [firstn m p]) (closes c))
    end.

Definition conn_Close (c : Conn) : Conn :=
  mkConn (incoming c) (writes c) (sent c) (S (closes c)).

(** ** [strings.TrimRight] with a cutset of one ASCII byte *)

Fixpoint dropWhileEq (c : byte) (l : list byte) : list byte :=
  match l with
  | [] => []
  | b :: l' => if Byte.eqb b c then dropWhileEq c l' else l
  end.

(** Bytes equal to [c] are removed from the end, one at a time. *)
Definition trimRightByte (s : list byte) (c : byte) : list byte :=
  rev (dropWhileEq c (rev s)).

Definition TrimRight (s : string) (c : byte) : string :=
  string_of_list_byte (trimRightByte (list_byte_of_string s) c).

(** [strings.HasSuffix] for a suffix of one byte. *)
Definition hasSuffixByte (s : list byte) (c : byte) : bool :=
  match rev s with
  | b :: _ => Byte.eqb b c
  | [] => false
  end.

(** ** The client *)

Record Client : Type := mkClient {
  Host : string;
  Port : Z;
  authorized : bool;
  connection : option Conn
}.

Definition set_connection (this : Client) (c : option Conn) : Client :=
  mkClient (Host this) (Port this) (authorized this) c.

Definition set_authorized (this : Client) (b : bool) : Client :=
  mkClient (Host this) (Port this) b (connection this).

Definition set_size (h : header) (v : Z) : header :=
  mkHeader v (challenge h) (headerType h).

Definition set_challenge (h : header) (v : Z) : header :=
  mkHeader (size h) v (headerType h).

Definition set_headerType (h : header) (v : Z) : header :=
  mkHeader (size h) (challenge h) v.

(** The two named results [(response *Packet, err error)]. *)
Definition results : Type := (option Packet * option error)%type.

Definition NewClient (host : string) (port : Z) : Client * option error :=
  (mkClient host port false None, None).

(** [dial] is what [net.Dial] returns: a connection or an error. *)
Definition Connect (this : Client) (dial : option Conn * option error)
  : Client * option error :=
  let '(conn, err) := dial in
  (set_connection this conn, err).

(** [return] of the named results after a failed step: [response] is still
    nil there. *)
Notation "'return_if' err 'at' this 'over' c ; k" :=
  (match err with
   | Some _ => Returns (set_connection this (Some c), (@None Packet, err))
   | None => k
   end)
  (at level 10, err at level 9, this at level 9, c at level 9,
   k at level 200, only parsing).

(** [rand_Reader] is the state of [crypto/rand]'s reader at the call; the
    local variable [challenge] of the source is [id] here. *)
Definition send (this : Client) (rand_Reader : stream) (typ : Z)
    (command : string) : outcome (Client * results) :=
  let response : option Packet := None in
  if negb (typ =? auth) && negb (authorized this) then
    Returns (this, (response, Some ErrUnauthorizedRequest))
  else
    (* Create a random challenge for the server to mirror. *)
    let id := 0 in
    let '(id, _, _) := binary_Read rand_Reader id in
    let packet := newPacket id typ command in
    let '(payload, err) := compile packet in
    match err with
    | Some _ => Returns (this, (response, err))
    | None =>
      match connection this with
      | None => Panics
      | Some conn =>
        let '(n, err, conn) := conn_Write conn payload in
        return_if err at this over conn;
        if negb (n =? List.length payload)%nat then
          Returns (set_connection this (Some conn),
                   (response, Some ErrInvalidWrite))
        else
          (* The statements after the AUTH branch. *)
          let rest (header : header) (conn : Conn) :=
            if negb (challenge header =? challenge (Header packet)) then
              Returns (set_connection this (Some conn),
                       (response, Some ErrInvalidChallenge))
            else
              match make (sub (size header) packetHeaderSize) with
              | Panics => Panics
              | Returns body =>
                let '(n, err, body', conn) := conn_Read conn body in
                return_if err at this over conn;
                if negb (n =? List.length body)%nat then
                  Returns (set_connection this (Some conn),
                           (response, Some ErrInvalidRead))
                else
                  let response :=
                    mkPacket header
                      (TrimRight (string_of_list_byte body')
                                 terminationSequence) in
                  Returns (set_connection this (Some conn),
                           (Some response, None))
              end in
          let header := mkHeader 0 0 0 in
          let '(v, err, conn) := conn_binary_Read conn (size header) in
          let header := set_size header v in
          return_if err at this over conn;
          let '(v, err, conn) := conn_binary_Read conn (challenge header) in
          let header := set_challenge header v in
          return_if err at this over conn;
          let '(v, err, conn) := conn_binary_Read conn (headerType header) in
          let header := set_headerType header v in
          return_if err at this over conn;
          if (headerType (Header packet) =? auth)
             && (headerType header =? responseValue) then
            (* Discard the empty SERVERDATA_RESPONSE_VALUE. *)
            match make (sub (size header) packetHeaderSize) with
            | Panics => Panics
            | Returns buf =>
              let '(_, _, _, conn) := conn_Read conn buf in
              (* Reread the packet header. *)
              let '(v, err, conn) := conn_binary_Read conn (size header) in
              let header := set_size header v in
              return_if err at this over conn;
              let '(v, err, conn) :=
                conn_binary_Read conn (challenge header) in
              let header := set_challenge header v in
              return_if err at this over conn;
              let '(v, err, conn) :=
                conn_binary_Read conn (headerType header) in
              let header := set_headerType header v in
              return_if err at this over conn;
              rest header conn
            end
          else rest header conn
      end
    end.

Definition Authorize (this : Client) (rand_Reader : stream) (password : string)
  : outcome (Client * results) :=
  match send this rand_Reader auth password with
  | Panics => Panics
  | Returns (this, (response, err)) =>
    match err with
    | None =>
      match response with
      | None => Panics
      | Some p =>
        if headerType (Header p) =? authResponse then
          Returns (set_authorized this true, (response, err))
        else
          Returns (this, (None, Some ErrFailedAuthorization))
      end
    | Some _ => Returns (this, (response, err))
    end
  end.

Definition Execute (this : Client) (rand_Reader : stream) (command : string)
  : outcome (Client * results) :=
  send this rand_Reader exec command.

(** ** The session of a caller *)

(** Modelled from the spec: [Disconnect] is called by the tests of the
    package but [rcon.go] does not define it.  It releases the transport
    that the session holds; a session without one has nothing to release. *)
Definition Disconnect (this : Client) : Client :=
  match connection this with
  | Some c => set_connection this (Some (conn_Close c))
  | None => this
  end.

(** The operations a caller performs on a session, with what the world
    answers to each: the result of the dial, the state of the random
    source. *)
Inductive call : Type :=
| CallConnect (dial : option Conn * option error)
| CallAuthorize (rand_Reader : stream) (password : string)
| CallExecute (rand_Reader : stream) (command : string)
| CallDisconnect.

Definition perform (this : Client) (c : call) : outcome (Client * results) :=
  match c with
  | CallConnect dial =>
    let '(this, err) := Connect this dial in Returns (this, (None, err))
  | CallAuthorize r password => Authorize this r password
  | CallExecute r command => Execute this r command
  | CallDisconnect => Returns (Disconnect this, (None, None))
  end.

Definition is_request (c : call) : bool :=
  match c with
  | CallAuthorize _ _ | CallExecute _ _ => true
  | _ => false
  end.

(** ** The client where a call exits

    A caller that has deferred a call runs it when the function exits, by
    a return or by a panic, on the client as the exit leaves it.  The
    definitions of this module are those of [send], [Authorize] and
    [Execute] again, with one difference: a panic carries the client as
    it is when the goroutine panics, its connection being the one in hand
    after the writes and reads made so far. *)

Inductive exit (A : Type) : Type :=
| Returned (a : A)
| Panicked (this : Client).
Arguments Returned {A} a.
Arguments Panicked {A} this.

(** The outcome of an exit, the client of a panic forgotten. *)
Definition outcome_of {A : Type} (e : exit A) : outcome A :=
  match e with
  | Returned a => Returns a
  | Panicked _ => Panics
  end.

(** The client that an exit leaves. *)
Definition client_of {B : Type} (e : exit (Client * B)) : Client :=
  match e with
  | Returned (this, _) => this
  | Panicked this => this
  end.

Notation "'exit_if' err 'at' this 'over' c ; k" :=
  (match err with
   | Some _ => Returned (set_connection this (Some c), (@None Packet, err))
   | None => k
   end)
  (at level 10, err at level 9, this at level 9, c at level 9,
   k at level 200, only parsing).

Module AtExit.

Definition send (this : Client) (rand_Reader : stream) (typ : Z)
    (command : string) : exit (Client * results) :=
  let response : option Packet := None in
  if negb (typ =? auth) && negb (authorized this) then
    Returned (this, (response, Some ErrUnauthorizedRequest))
  else
    (* Create a random challenge for the server to mirror. *)
    let id := 0 in
    let '(id, _, _) := binary_Read rand_Reader id in
    let packet := newPacket id typ command in
    let '(payload, err) := compile packet in
    match err with
    | Some _ => Returned (this, (response, err))
    | None =>
      match connection this with
      | None => Panicked this
      | Some conn =>
        let '(n, err, conn) := conn_Write conn payload in
        exit_if err at this over conn;
        if negb (n =? List.length payload)%nat then
          Returned (set_connection this (Some conn),
                   (response, Some ErrInvalidWrite))
        else
          (* The statements after the AUTH branch. *)
          let rest (header : header) (conn : Conn) :=
            if negb (challenge header =? challenge (Header packet)) then
              Returned (set_connection this (Some conn),
                       (response, Some ErrInvalidChallenge))
            else
              match make (sub (size header) packetHeaderSize) with
              | Panics => Panicked (set_connection this (Some conn))
              | Returns body =>
                let '(n, err, body', conn) := conn_Read conn body in
                exit_if err at this over conn;
                if negb (n =? List.length body)%nat then
                  Returned (set_connection this (Some conn),
                           (response, Some ErrInvalidRead))
                else
                  let response :=
                    mkPacket header
                      (TrimRight (string_of_list_byte body')
                                 terminationSequence) in
                  Returned (set_connection this (Some conn),
                           (Some response, None))
              end in
          let header := mkHeader 0 0 0 in
          let '(v, err, conn) := conn_binary_Read conn (size header) in
          let header := set_size header v in
          exit_if err at this over conn;
          let '(v, err, conn) := conn_binary_Read conn (challenge header) in
          let header := set_challenge header v in
          exit_if err at this over conn;
          let '(v, err, conn) := conn_binary_Read conn (headerType header) in
          let header := set_headerType header v in
          exit_if err at this over conn;
          if (headerType (Header packet) =? auth)
             && (headerType header =? responseValue) then
            (* Discard the empty SERVERDATA_RESPONSE_VALUE. *)
            match make (sub (size header) packetHeaderSize) with
            | Panics => Panicked (set_connection this (Some conn))
            | Returns buf =>
              let '(_, _, _, conn) := conn_Read conn buf in
              (* Reread the packet header. *)
              let '(v, err, conn) := conn_binary_Read conn (size header) in
              let header := set_size header v in
              exit_if err at this over conn;
              let '(v, err, conn) :=
                conn_binary_Read conn (challenge header) in
              let header := set_challenge header v in
              exit_if err at this over conn;
              let '(v, err, conn) :=
                conn_binary_Read conn (headerType header) in
              let header := set_headerType header v in
              exit_if err at this over conn;
              rest header conn
            end
          else rest header conn
      end
    end.

Definition Authorize (this : Client) (rand_Reader : stream) (password : string)
  : exit (Client * results) :=
  match send this rand_Reader auth password with
  | Panicked this => Panicked this
  | Returned (this, (response, err)) =>
    match err with
    | None =>
      match response with
      | None => Panicked this
      | Some p =>
        if headerType (Header p) =? authResponse then
          Returned (set_authorized this true, (response, err))
        else
          Returned (this, (None, Some ErrFailedAuthorization))
      end
    | Some _ => Returned (this, (response, err))
    end
  end.

Definition Execute (this : Client) (rand_Reader : stream) (command : string)
  : exit (Client * results) :=
  send this rand_Reader exec command.

Definition perform (this : Client) (c : call) : exit (Client * results) :=
  match c with
  | CallConnect dial =>
    let '(this, err) := Connect this dial in Returned (this, (None, err))
  | CallAuthorize r password => Authorize this r password
  | CallExecute r command => Execute this r command
  | CallDisconnect => Returned (Disconnect this, (None, None))
  end.

End AtExit.

(** The client on which a deferred call runs: the caller makes the calls
    [cs] one after the other, going on whatever a call returns, and its
    function exits after the last of them or at the first that panics. *)
Fixpoint client_at_exit (this : Client) (cs : list call) : Client :=
  match cs with
  | [] => this
  | c :: cs =>
    match AtExit.perform this c with
    | Panicked this => this
    | Returned (this, _) => client_at_exit this cs
    end
  end.

(** ** The Send protocol of the specification, step by step

    These definitions follow the numbered steps of the specification; the
    lemma [send_protocol_eq] compares them with [send]. *)

(** Step 2: the challenge id of the request. *)
Definition request_id (rand_Reader : stream) : Z :=
  fst (fst (binary_Read rand_Reader 0)).

Definition payload_of (p : Packet) : list byte := fst (compile p).

(** An exchange that ends with the error [e]. *)
Definition fails (this : Client) (c : Conn) (e : option error)
  : outcome (Client * results) :=
  Returns (set_connection this (Some c), (None, e)).

(** Step 3: decode one response header, field by field. *)
Definition decodeHeader (c : Conn) : header * option error * Conn :=
  let '(s, err, c) := conn_binary_Read c 0 in
  match err with
  | Some _ => (mkHeader s 0 0, err, c)
  | None =>
    let '(i, err, c) := conn_binary_Read c 0 in
    match err with
    | Some _ => (mkHeader s i 0, err, c)
    | None =>
      let '(t, err, c) := conn_binary_Read c 0 in
      (mkHeader s i t, err, c)
    end
  end.

(** Steps 5 to 7: validate the header [h] against the challenge [id], read
    the body, strip it. *)
Definition evaluate (this : Client) (id : Z) (h : header) (c : Conn)
  : outcome (Client * results) :=
  if challenge h =? id then
    match make (sub (size h) packetHeaderSize) with
    | Panics => Panics
    | Returns body =>
      let '(n, err, body', c) := conn_Read c body in
      match err with
      | Some _ => fails this c err
      | None =>
        if (n =? List.length body)%nat then
          Returns (set_connection this (Some c),
                   (Some (mkPacket h (TrimRight (string_of_list_byte body')
                                                terminationSequence)),
                    None))
        else fails this c (Some ErrInvalidRead)
      end
    end
  else fails this c (Some ErrInvalidChallenge).

(** Step 4, the second header: what follows the discard of the body of the
    empty acknowledgment. *)
Definition evaluate_next (this : Client) (id : Z) (c : Conn)
  : outcome (Client * results) :=
  let '(h, err, c) := decodeHeader c in
  match err with
  | Some _ => fails this c err
  | None => evaluate this id h c
  end.

(** Steps 3 to 7. *)
Definition receive (this : Client) (typ id : Z) (c : Conn)
  : outcome (Client * results) :=
  let '(h, err, c) := decodeHeader c in
  match err with
  | Some _ => fails this c err
  | None =>
    if (typ =? auth) && (headerType h =? responseValue) then
      match make (sub (size h) packetHeaderSize) with
      | Panics => Panics
      | Returns buf =>
        let '(_, _, _, c) := conn_Read c buf in
        evaluate_next this id c
      end
    else evaluate this id h c
  end.

(** Steps 1 to 7. *)
Definition send_protocol (this : Client) (rand_Reader : stream) (typ : Z)
    (command : string) : outcome (Client * results) :=
  if negb (typ =? auth) && negb (authorized this) then
    Returns (this, (None, Some ErrUnauthorizedRequest))
  else
    let id := request_id rand_Reader in
    let payload := payload_of (newPacket id typ command) in
    match connection this with
    | None => Panics
    | Some c =>
      let '(n, err, c) := conn_Write c payload in
      match err with
      | Some _ => fails this c err
      | None =>
        if (n =? List.length payload)%nat then receive this typ id c
        else fails this c (Some ErrInvalidWrite)
      end
    end.

(** ** Notions of the statements *)

(** A connection that has not been closed. *)
Definition open (c : Conn) : Prop := closes c = 0%nat.

(** What is left of a stream whose first arrival has been read up to the
    bytes [bs]. *)
Definition advance (bs : list byte) (rest : stream) : stream :=
  match bs with
  | [] => rest
  | _ :: _ => Data bs :: rest
  end.

(** The byte length of a body. *)
Definition body_length (B : string) : Z :=
  Z.of_nat (List.length (list_byte_of_string B)).

(** The client holds a transport that has been closed [k] times. *)
Definition holds_transport (this : Client) (k : nat) : Prop :=
  exists c, connection this = Some c /\ closes c = k.

(** The results of an exchange on the connection [c] for the challenge
    [id]: the connection is kept and stays as open or closed as it was, and
    either a packet that mirrors the challenge comes with a nil error, its
    body read in full, or a nil packet comes with an error. *)
Definition clean_results (this : Client) (id : Z) (c : Conn)
    (this' : Client) (res : results) : Prop :=
  (exists c', this' = set_connection this (Some c') /\ closes c' = closes c)
  /\ ((exists p raw,
          res = (Some p, None)
          /\ challenge (Header p) = id
          /\ List.length raw = Z.to_nat (sub (size (Header p)) packetHeaderSize)
          /\ Body p = TrimRight (string_of_list_byte raw) terminationSequence)
      \/ (exists e, res = (None, Some e))).

(** A connection on which the bytes [l] have arrived in one piece. *)
Definition fresh_connection (l : list byte) : Conn := mkConn [Data l] [] [] 0.

(** An authorized client whose server answers with the encoding of the
    packet built for [B]. *)
Definition echo (id typ : Z) (B : string) : Client :=
  mkClient "localhost" 27015 true
    (Some (mkConn [Data (payload_of (newPacket id typ B))] [] [] 0)).

(** A body that ends with a NUL byte. *)
Definition body_with_NUL : string := string_of_list_byte ["a"%byte; x00].

(** A body of [2^31 - 10] bytes. *)
Definition long_body : string :=
  string_of_list_byte (repeat "a"%byte (Z.to_nat 2147483638)).

(** A server that mirrors the challenge 7 in a header whose size field
    is 0. *)
Definition undersized_reply : Client :=
  mkClient "localhost" 27015 true
    (Some (fresh_connection (PutUint32 0 ++ PutUint32 7 ++ PutUint32 0))).

(** A server that answers the AUTH request with challenge 7 by a packet
    of type 5. *)
Definition rejecting_server : Client :=
  mkClient "localhost" 27015 false
    (Some (fresh_connection (payload_of (newPacket 7 5 "")))).

(** The scenario of the specification: the server answers an AUTH with
    challenge 7 by an empty SERVERDATA_RESPONSE_VALUE and then by the
    SERVERDATA_AUTH_RESPONSE. *)
Definition auth_replies (id2 : Z) : list byte :=
  payload_of (newPacket 7 responseValue "")
  ++ payload_of (newPacket id2 authResponse "").

Definition quirk_client (id2 : Z) : Client :=
  mkClient "localhost" 27015 false (Some (fresh_connection (auth_replies id2))).

(** The connection of that scenario once the AUTH request is written, with
    [l] still to read. *)
Definition after_write (l : list byte) : Conn :=
  mkConn [Data l] [] [payload_of (newPacket 7 auth "pw")] 0.

(** The client of that scenario once both packets are read. *)
Definition after_exchange : Client :=
  mkClient "localhost" 27015 false
    (Some (mkConn [] [] [payload_of (newPacket 7 auth "pw")] 0)).

(** The read into the discard buffer fails, and the AUTH_RESPONSE that
    arrives afterwards is returned all the same. *)
Definition broken_discard : Conn :=
  mkConn [Data (PutUint32 10 ++ PutUint32 7 ++ PutUint32 responseValue);
          Broken (ErrNet 104);
          Data (payload_of (newPacket 7 authResponse ""))] [] [] 0.

(** The connection [c] once the payload [p] has been written to it in
    full, by the only write of its script. *)
Definition written_to (c : Conn) (p : list byte) : Conn :=
  mkConn (incoming c) [] (sent c ++ [p]) (closes c).

(** The bytes of a packet on the wire: the three fields of the header and
    the bytes that follow them. *)
Definition wire (h : header) (raw : list byte) : list byte :=
  PutUint32 (size h) ++ PutUint32 (challenge h) ++ PutUint32 (headerType h)
  ++ raw.

(** A header of three [int32] fields. *)
Definition header_in_range (h : header) : Prop :=
  in_range (size h) /\ in_range (challenge h) /\ in_range (headerType h).

(** The packet that [send] assembles from the header [h] and the bytes
    [raw] read after it. *)
Definition assembled (h : header) (raw : list byte) : Packet :=
  mkPacket h (TrimRight (string_of_list_byte raw) terminationSequence).

(** The arrivals of a stream are not empty. *)
Definition nonempty (l : list (list byte)) : Prop :=
  Forall (fun bs => bs <> []) l.

(** An authorized client on an open connection whose stream is [l]. *)
Definition authorized_client (l : stream) : Client :=
  mkClient "localhost" 27015 true (Some (mkConn l [] [] 0)).

(** That connection once the request ["status"] with the challenge 7 has
    been written, with [l] still to read. *)
Definition status_written (l : stream) : Conn :=
  mkConn l [] [payload_of (newPacket 7 exec "status")] 0.

(** A random source that yields the challenge 7. *)
Definition challenge7 : stream := [Data (PutUint32 7)].

(** The reply ["ok"] to the challenge 7: its header, and the bytes after
    it. *)
Definition ok_header : header := mkHeader 12 7 responseValue.

Definition ok_raw : list byte := ["o"%byte; "k"%byte; x00; x00].

(** The client [this'] holds, in place of the connection [c] of [this],
    a connection that has been closed as many times. *)
Definition kept (this : Client) (c : Conn) (this' : Client) : Prop :=
  exists c', this' = set_connection this (Some c') /\ closes c' = closes c.

(** A client just connected to a server that answers the AUTH request
    with challenge 7 by a header of type 2 whose size field is 0. *)
Definition connected_to_undersized_reply : Client :=
  mkClient "localhost" 27015 false
    (Some (fresh_connection (wire (mkHeader 0 7 authResponse) []))).

(** * Properties *)

(** ** The protocol that [send] runs *)

Lemma compile_eq (p : Packet) :
  compile p =
  (PutUint32 (size (Header p)) ++ PutUint32 (challenge (Header p))
   ++ PutUint32 (headerType (Header p))
   ++ list_byte_of_string (Body p) ++ [x00; x00], None).
Proof.
  unfold compile, binary_Write, Buffer_WriteString, Buffer_Write.
  cbn [app]. rewrite <- !app_assoc. reflexivity.
Qed.

(** A failed [binary.Read] leaves the variable as it was, a successful one
    forgets what it held. *)
Lemma binary_Read_old (r : stream) (v : Z) :
  binary_Read r v =
  match binary_Read r 0 with
  | (_, Some e, r') => (v, Some e, r')
  | (w, None, r') => (w, None, r')
  end.
Proof.
  unfold binary_Read. destruct (ReadFull r 4) as [[bs [e|]] r']; reflexivity.
Qed.

Lemma conn_binary_Read_old (c : Conn) (v : Z) :
  conn_binary_Read c v =
  match conn_binary_Read c 0 with
  | (_, Some e, c') => (v, Some e, c')
  | (w, None, c') => (w, None, c')
  end.
Proof.
  unfold conn_binary_Read. destruct (0 <? closes c)%nat; [reflexivity|].
  rewrite (binary_Read_old _ v).
  destruct (binary_Read (incoming c) 0) as [[w [e|]] r']; reflexivity.
Qed.

Ltac read_field c :=
  let v := fresh "v" in
  let e := fresh "e" in
  let c' := fresh "c" in
  destruct (conn_binary_Read c 0) as [[v [e|]] c']; [reflexivity|].

Ltac reread_field c old :=
  rewrite (conn_binary_Read_old c old); read_field c.

Lemma send_protocol_eq (this : Client) (r : stream) (typ : Z) (command : string) :
  send this r typ command = send_protocol this r typ command.
Proof.
  unfold send, send_protocol, payload_of, request_id.
  destruct (negb (typ =? auth) && negb (authorized this)); [reflexivity|].
  destruct (binary_Read r 0) as [[id e] r'] eqn:Hid. cbn [fst].
  rewrite compile_eq. cbn [fst].
  destruct (connection this) as [conn|]; [|reflexivity].
  destruct (conn_Write conn _) as [[n err] conn1].
  destruct err; [reflexivity|].
  destruct (n =? _)%nat; cbn [negb]; [|reflexivity].
  unfold receive, evaluate_next, decodeHeader, evaluate, fails.
  cbn [Header newPacket headerType challenge size set_size set_challenge
       set_headerType].
  read_field conn1. read_field c. read_field c0.
  cbn [headerType size challenge].
  destruct ((typ =? auth) && (v1 =? responseValue)).
  - destruct (make (sub v packetHeaderSize)) as [buf|]; [|reflexivity].
    destruct (conn_Read c1 buf) as [[[n' e'] buf'] c2].
    reread_field c2 v. reread_field c3 v0. reread_field c4 v1.
    cbn [headerType size challenge].
    destruct (v3 =? id); cbn [negb]; [|reflexivity].
    destruct (make (sub v2 packetHeaderSize)) as [body|]; [|reflexivity].
    destruct (conn_Read c5 body) as [[[n3 [e3|]] body'] c6]; [reflexivity|].
    destruct (n3 =? List.length body)%nat; reflexivity.
  - destruct (v0 =? id); cbn [negb]; [|reflexivity].
    destruct (make (sub v packetHeaderSize)) as [body|]; [|reflexivity].
    destruct (conn_Read c1 body) as [[[n3 [e3|]] body'] c6]; [reflexivity|].
    destruct (n3 =? List.length body)%nat; reflexivity.
Qed.

(** ** Machine integers and the byte order *)

Lemma wrap32_in_range (z : Z) : in_range (wrap32 z).
Proof.
  unfold in_range, wrap32, min_int, max_int, half, modulus.
  pose proof (Z.mod_pos_bound (z + 2 ^ 31) (2 ^ 32) ltac:(lia)). lia.
Qed.

Lemma wrap32_id (z : Z) : in_range z -> wrap32 z = z.
Proof.
  unfold in_range, wrap32, min_int, max_int, half, modulus. intros H.
  rewrite Z.mod_small; lia.
Qed.

Lemma wrap32_mod (z : Z) : wrap32 (z mod 2 ^ 32) = wrap32 z.
Proof.
  unfold wrap32, half, modulus.
  rewrite Zplus_mod_idemp_l. reflexivity.
Qed.

Lemma Z_of_byte_of_Z (z : Z) : Z_of_byte (byte_of_Z z) = z mod 2 ^ 8.
Proof.
  unfold Z_of_byte, byte_of_Z. change (2 ^ 8) with 256.
  pose proof (Z.mod_pos_bound z 256 ltac:(lia)) as Hb.
  destruct (Byte.of_N (Z.to_N (z mod 256))) as [b|] eqn:E.
  - apply Byte.to_of_N in E. rewrite E. lia.
  - apply Byte.of_N_None_iff in E. lia.
Qed.

Lemma Z_of_byte_range (b : byte) : 0 <= Z_of_byte b < 256.
Proof.
  unfold Z_of_byte. pose proof (Byte.to_N_bounded b). lia.
Qed.

Lemma byte_of_Z_of_byte (b : byte) : byte_of_Z (Z_of_byte b) = b.
Proof.
  unfold byte_of_Z. pose proof (Z_of_byte_range b).
  rewrite Z.mod_small by lia. unfold Z_of_byte.
  rewrite N2Z.id, Byte.of_to_N. reflexivity.
Qed.

Lemma PutUint32_length (v : Z) : List.length (PutUint32 v) = 4%nat.
Proof. reflexivity. Qed.

(** The byte at index [i] holds the bits [8 i .. 8 i + 7] of the value:
    the least significant byte comes first. *)
Lemma PutUint32_nth (v : Z) (i : nat) :
  (i < 4)%nat ->
  Z_of_byte (nth i (PutUint32 v) x00) = (v / 2 ^ (8 * Z.of_nat i)) mod 2 ^ 8.
Proof.
  intros Hi. unfold PutUint32.
  destruct i as [|[|[|[|i]]]]; try lia; cbn [nth];
    rewrite Z_of_byte_of_Z, ?Z.shiftr_div_pow2 by lia;
    cbn [Z.of_nat Z.mul Pos.of_succ_nat Pos.succ Pos.mul];
    rewrite ?Z.pow_0_r, ?Z.div_1_r; reflexivity.
Qed.

Lemma Uint32_PutUint32 (v : Z) : Uint32 (PutUint32 v) = v mod 2 ^ 32.
Proof.
  unfold Uint32, PutUint32. cbn [nth]. rewrite !Z_of_byte_of_Z.
  apply Z.bits_inj'. intros n Hn.
  rewrite !Z.lor_spec, !Z.shiftl_spec by lia.
  destruct (Z_lt_le_dec n 32) as [H32|H32].
  2:{ rewrite !Z.mod_pow2_bits_high by lia. reflexivity. }
  rewrite (Z.mod_pow2_bits_low v 32) by lia.
  destruct (Z_lt_le_dec n 8) as [H8|H8].
  { rewrite Z.mod_pow2_bits_low by lia.
    rewrite !(Z.testbit_neg_r _ (n - _)) by lia.
    rewrite !orb_false_r. reflexivity. }
  rewrite (Z.mod_pow2_bits_high v 8 n) by lia. cbn [orb].
  destruct (Z_lt_le_dec n 16) as [H16|H16].
  { rewrite (Z.mod_pow2_bits_low _ 8 (n - 8)) by lia.
    rewrite Z.shiftr_spec by lia.
    rewrite !(Z.testbit_neg_r _ (n - _)) by lia.
    rewrite !orb_false_r. f_equal. lia. }
  rewrite (Z.mod_pow2_bits_high _ 8 (n - 8)) by lia. cbn [orb].
  destruct (Z_lt_le_dec n 24) as [H24|H24].
  { rewrite (Z.mod_pow2_bits_low _ 8 (n - 16)) by lia.
    rewrite Z.shiftr_spec by lia.
    rewrite !(Z.testbit_neg_r _ (n - _)) by lia.
    rewrite !orb_false_r. f_equal. lia. }
  rewrite (Z.mod_pow2_bits_high _ 8 (n - 16)) by lia. cbn [orb].
  rewrite (Z.mod_pow2_bits_low _ 8 (n - 24)) by lia.
  rewrite Z.shiftr_spec by lia. f_equal. lia.
Qed.

(** An [int32] written by [binary.Write] is read back by [binary.Read]. *)
Lemma int32_round_trip (v : Z) :
  in_range v -> wrap32 (Uint32 (PutUint32 v)) = v.
Proof.
  intros H. rewrite Uint32_PutUint32, wrap32_mod. apply wrap32_id, H.
Qed.

(** ** Readers *)

(** [ReadAtLeast] is the loop of [io.ReadAtLeast]: one [Read] into the part
    of the buffer that is still empty, then the same again. *)
Lemma ReadAtLeast_step (r : stream) (acc : list byte) (need : nat) :
  (0 < need)%nat ->
  ReadAtLeast r acc need =
  let '(n, err, buf, r') := Read r (repeat x00 need) in
  match err with
  | Some e => (acc, Some (short_error (List.length acc) e), r')
  | None => ReadAtLeast r' (acc ++ firstn n buf) (need - n)
  end.
Proof.
  intros Hn. destruct need as [|k]; [lia|].
  destruct r as [|[bs|e] r']; cbn [ReadAtLeast Read repeat]; try reflexivity.
  change (x00 :: repeat x00 k) with (repeat x00 (S k)).
  rewrite repeat_length.
  destruct (List.length bs <=? S k)%nat eqn:E.
  - apply Nat.leb_le in E. unfold fill.
    rewrite firstn_app, Nat.sub_diag, firstn_all. cbn [firstn].
    rewrite app_nil_r. reflexivity.
  - apply Nat.leb_gt in E.
    rewrite firstn_firstn, Nat.min_id, Nat.sub_diag.
    destruct r'; reflexivity.
Qed.

Lemma Read_arrival (a b buf : list byte) (rest : stream) :
  a <> [] -> List.length buf = List.length a ->
  Read (Data (a ++ b) :: rest) buf
  = (List.length a, None, a, advance b rest).
Proof.
  intros Ha Hl. unfold Read.
  destruct buf as [|x buf]; [destruct a; [congruence|discriminate]|].
  rewrite Hl, length_app.
  destruct b as [|y b].
  - rewrite Nat.add_0_r, Nat.leb_refl, app_nil_r. unfold fill.
    rewrite <- Hl, skipn_all, app_nil_r. reflexivity.
  - destruct (_ <=? _)%nat eqn:E.
    + apply Nat.leb_le in E. cbn [List.length] in E. lia.
    + rewrite firstn_app, firstn_all, Nat.sub_diag. cbn [firstn].
      rewrite skipn_app, skipn_all, Nat.sub_diag, app_nil_r. reflexivity.
Qed.

Lemma ReadFull_arrival (a b : list byte) (rest : stream) :
  a <> [] ->
  ReadFull (Data (a ++ b) :: rest) (List.length a) = (a, None, advance b rest).
Proof.
  intros Ha. unfold ReadFull.
  destruct a as [|x a]; [congruence|]. cbn [List.length ReadAtLeast].
  change (S (List.length a)) with (List.length (x :: a)).
  rewrite length_app.
  destruct b as [|y b].
  - rewrite Nat.add_0_r, Nat.leb_refl, Nat.sub_diag, app_nil_r.
    destruct rest; reflexivity.
  - destruct (_ <=? _)%nat eqn:E.
    + apply Nat.leb_le in E. cbn [List.length] in E. lia.
    + rewrite firstn_app, firstn_all, Nat.sub_diag. cbn [firstn].
      rewrite skipn_app, skipn_all, Nat.sub_diag, app_nil_r. reflexivity.
Qed.

Lemma binary_Read_arrival (v old : Z) (b : list byte) (rest : stream) :
  binary_Read (Data (PutUint32 v ++ b) :: rest) old
  = (wrap32 v, None, advance b rest).
Proof.
  unfold binary_Read.
  change 4%nat with (List.length (PutUint32 v)).
  rewrite ReadFull_arrival by discriminate.
  rewrite Uint32_PutUint32, wrap32_mod. reflexivity.
Qed.

(** A failed read of the random source leaves the challenge at zero. *)
Lemma request_id_failed (r : stream) (e : error) :
  snd (fst (binary_Read r 0)) = Some e -> request_id r = 0.
Proof.
  unfold request_id, binary_Read.
  destruct (ReadFull r 4) as [[bs [e'|]] r']; cbn; congruence.
Qed.

Lemma request_id_in_range (r : stream) : in_range (request_id r).
Proof.
  unfold request_id, binary_Read.
  destruct (ReadFull r 4) as [[bs [e'|]] r']; cbn [fst].
  - unfold in_range, min_int, max_int, half. lia.
  - apply wrap32_in_range.
Qed.

(** ** The connection *)

Lemma conn_binary_Read_arrival (c : Conn) (v old : Z) (b : list byte)
    (rest : stream) :
  open c -> incoming c = Data (PutUint32 v ++ b) :: rest ->
  conn_binary_Read c old = (wrap32 v, None, set_incoming c (advance b rest)).
Proof.
  unfold open, conn_binary_Read. intros Ho Hi. rewrite Ho, Hi.
  cbn [Nat.ltb Nat.leb]. rewrite binary_Read_arrival. reflexivity.
Qed.

Lemma conn_Read_arrival (c : Conn) (a b buf : list byte) (rest : stream) :
  open c -> incoming c = Data (a ++ b) :: rest ->
  a <> [] -> List.length buf = List.length a ->
  conn_Read c buf
  = (List.length a, None, a, set_incoming c (advance b rest)).
Proof.
  unfold open, conn_Read. intros Ho Hi Ha Hl. rewrite Ho, Hi.
  cbn [Nat.ltb Nat.leb]. rewrite Read_arrival by assumption. reflexivity.
Qed.

(** A header that arrives in one piece with what follows it is decoded
    field by field, in the order size, id, type. *)
Lemma decodeHeader_arrival (c : Conn) (s i t : Z) (b : list byte)
    (rest : stream) :
  open c ->
  incoming c = Data (PutUint32 s ++ PutUint32 i ++ PutUint32 t ++ b) :: rest ->
  decodeHeader c
  = (mkHeader (wrap32 s) (wrap32 i) (wrap32 t), None,
     set_incoming c (advance b rest)).
Proof.
  intros Ho Hi. unfold decodeHeader.
  rewrite (conn_binary_Read_arrival c s 0 _ rest Ho Hi).
  rewrite (conn_binary_Read_arrival _ i 0 (PutUint32 t ++ b) rest);
    [|exact Ho|reflexivity].
  rewrite (conn_binary_Read_arrival _ t 0 b rest);
    [|exact Ho|reflexivity].
  reflexivity.
Qed.

(** ** Trimming *)

Lemma dropWhileEq_repeat (c : byte) (k : nat) (l : list byte) :
  dropWhileEq c (repeat c k ++ l) = dropWhileEq c l.
Proof.
  induction k as [|k IH]; [reflexivity|].
  cbn [repeat app dropWhileEq].
  rewrite (Byte.byte_dec_lb (x:=c) eq_refl). exact IH.
Qed.

Lemma rev_repeat (c : byte) (k : nat) : rev (repeat c k) = repeat c k.
Proof.
  induction k as [|k IH]; [reflexivity|].
  cbn [repeat rev]. rewrite IH. symmetry. apply repeat_cons.
Qed.

(** Bytes [c] added at the end are trimmed with those that were there. *)
Lemma trimRightByte_repeat (s : list byte) (c : byte) (k : nat) :
  trimRightByte (s ++ repeat c k) c = trimRightByte s c.
Proof.
  unfold trimRightByte.
  rewrite rev_app_distr, rev_repeat, dropWhileEq_repeat. reflexivity.
Qed.

Lemma trimRightByte_no_suffix (s : list byte) (c : byte) :
  hasSuffixByte s c = false -> trimRightByte s c = s.
Proof.
  unfold hasSuffixByte, trimRightByte. intros H.
  destruct (rev s) as [|b l] eqn:E.
  - cbn. apply (f_equal (@rev byte)) in E. rewrite rev_involutive in E.
    symmetry. exact E.
  - cbn [dropWhileEq]. rewrite H, <- E. apply rev_involutive.
Qed.

Lemma trimRightByte_suffix (s : list byte) (c : byte) :
  hasSuffixByte s c = true -> trimRightByte s c <> s.
Proof.
  unfold hasSuffixByte. intros H E.
  assert (Hl : forall l, (List.length (dropWhileEq c l) <= List.length l)%nat).
  { induction l as [|b l IH]; cbn [dropWhileEq List.length]; [lia|].
    destruct (Byte.eqb b c); cbn [List.length]; lia. }
  apply (f_equal (@List.length byte)) in E. unfold trimRightByte in E.
  rewrite length_rev in E.
  destruct (rev s) as [|b l] eqn:Er; [discriminate|].
  cbn [dropWhileEq] in E. rewrite H in E.
  specialize (Hl l). rewrite <- (length_rev s), Er in E.
  cbn [List.length] in E. lia.
Qed.

Lemma TrimRight_padded (B : string) (k : nat) :
  hasSuffixByte (list_byte_of_string B) x00 = false ->
  TrimRight (string_of_list_byte (list_byte_of_string B ++ repeat x00 k))
            terminationSequence = B.
Proof.
  intros H. unfold TrimRight, terminationSequence.
  rewrite list_byte_of_string_of_list_byte, trimRightByte_repeat.
  rewrite trimRightByte_no_suffix by exact H.
  apply string_of_list_byte_of_string.
Qed.

(** ** Packets on the wire *)

Lemma newPacket_size (id typ : Z) (B : string) :
  body_length B + 10 <= max_int ->
  size (Header (newPacket id typ B)) = body_length B + 10.
Proof.
  intros H. unfold newPacket, body_length in *. cbn [Header size].
  apply wrap32_id. unfold in_range, min_int, max_int, half in *.
  unfold packetHeaderSize, packetPaddingSize. lia.
Qed.

Lemma payload_of_eq (p : Packet) :
  payload_of p =
  PutUint32 (size (Header p)) ++ PutUint32 (challenge (Header p))
  ++ PutUint32 (headerType (Header p))
  ++ list_byte_of_string (Body p) ++ [x00; x00].
Proof. unfold payload_of. rewrite compile_eq. reflexivity. Qed.

Lemma make_length (n : Z) :
  0 <= n -> make n = Returns (repeat x00 (Z.to_nat n)).
Proof.
  intros H. unfold make. destruct (n <? 0) eqn:E; [|reflexivity].
  apply Z.ltb_lt in E. lia.
Qed.

(** The receiving half of [send] on a packet that arrives in one piece,
    followed by [more]: the packet is decoded and [more] is left. *)
Lemma receive_packet (this : Client) (typ id : Z) (c : Conn) (p : Packet)
    (more : list byte) (rest : stream) :
  open c ->
  incoming c = Data (payload_of p ++ more) :: rest ->
  in_range (challenge (Header p)) -> in_range (headerType (Header p)) ->
  size (Header p) = body_length (Body p) + 10 ->
  body_length (Body p) + 10 <= max_int ->
  (typ =? auth) && (headerType (Header p) =? responseValue) = false ->
  challenge (Header p) = id ->
  hasSuffixByte (list_byte_of_string (Body p)) x00 = false ->
  receive this typ id c
  = Returns (set_connection this (Some (set_incoming c (advance more rest))),
             (Some p, None)).
Proof.
  intros Ho Hi Hc Ht Hs Hmax Hq Hid Hsuf.
  destruct p as [[s i t] B]. cbn [Header Body size challenge headerType] in *.
  assert (Hb : 0 <= body_length B) by (unfold body_length; lia).
  assert (Hsr : in_range s).
  { rewrite Hs. unfold in_range, min_int, max_int, half in *. lia. }
  rewrite payload_of_eq in Hi.
  cbn [Header Body size challenge headerType] in Hi.
  rewrite <- !app_assoc in Hi.
  unfold receive.
  rewrite (decodeHeader_arrival c s i t _ rest Ho Hi).
  rewrite !wrap32_id by assumption. cbn [headerType]. rewrite Hq.
  unfold evaluate. cbn [challenge size]. rewrite Hid, Z.eqb_refl.
  assert (Hsub : sub s packetHeaderSize = body_length B + 2).
  { unfold sub, packetHeaderSize. rewrite Hs.
    replace (body_length B + 10 - 8) with (body_length B + 2) by lia.
    apply wrap32_id.
    unfold in_range, min_int, max_int, half in *. lia. }
  rewrite Hsub, make_length by lia.
  set (a := list_byte_of_string B ++ [x00; x00]).
  assert (Hla : List.length a = Z.to_nat (body_length B + 2)).
  { unfold a, body_length. rewrite length_app. cbn [List.length]. lia. }
  erewrite (conn_Read_arrival _ a more _ rest).
  - rewrite repeat_length, Hla, Nat.eqb_refl.
    unfold a. change [x00; x00] with (repeat x00 2).
    rewrite TrimRight_padded by exact Hsuf. reflexivity.
  - exact Ho.
  - cbn [incoming set_incoming]. unfold a. rewrite <- !app_assoc.
    cbn [app]. destruct (list_byte_of_string B); reflexivity.
  - unfold a. destruct (list_byte_of_string B); discriminate.
  - rewrite repeat_length. symmetry. exact Hla.
Qed.

Lemma conn_Write_complete (c : Conn) (p : list byte) :
  open c -> writes c = [] ->
  conn_Write c p
  = (List.length p, None, mkConn (incoming c) [] (sent c ++ [p]) (closes c)).
Proof.
  unfold open, conn_Write. intros Ho Hw. rewrite Ho, Hw. reflexivity.
Qed.

Lemma send_authorized (this : Client) (r : stream) (typ : Z) (command : string) :
  typ = auth \/ authorized this = true ->
  send this r typ command =
  match connection this with
  | None => Panics
  | Some c =>
    let payload := payload_of (newPacket (request_id r) typ command) in
    let '(n, err, c) := conn_Write c payload in
    match err with
    | Some _ => fails this c err
    | None =>
      if (n =? List.length payload)%nat
      then receive this typ (request_id r) c
      else fails this c (Some ErrInvalidWrite)
    end
  end.
Proof.
  intros H. rewrite send_protocol_eq. unfold send_protocol.
  destruct H as [H|H]; rewrite H; cbn [negb andb];
    rewrite ?andb_false_r; reflexivity.
Qed.

Lemma body_length_repeat (b : byte) (n : nat) :
  body_length (string_of_list_byte (repeat b n)) = Z.of_nat n.
Proof.
  unfold body_length.
  rewrite list_byte_of_string_of_list_byte, repeat_length. reflexivity.
Qed.

Lemma newPacket_size_wrap (id typ : Z) (B : string) :
  size (Header (newPacket id typ B)) = wrap32 (body_length B + 10).
Proof. reflexivity. Qed.

(** ** The packet codec *)

(** C1, as amended.  Let [B] be a body of [N] bytes that does not end with
    a NUL byte, with [N + 10] within the 32-bit signed range, and [typ] an
    [int32].  When the encoding of the packet built for [B] arrives in
    answer to an EXECCOMMAND request with the same challenge, [Execute]
    decodes it to that very packet: its body is [B] and its size field is
    [N + 10]. *)
Theorem round_trip (this : Client) (r : stream) (command : string) (c : Conn)
    (typ : Z) (B : string) (rest : stream) :
  authorized this = true ->
  connection this = Some c -> open c -> writes c = [] ->
  incoming c = Data (payload_of (newPacket (request_id r) typ B)) :: rest ->
  in_range typ ->
  body_length B + 10 <= max_int ->
  hasSuffixByte (list_byte_of_string B) x00 = false ->
  exists this' p,
    Execute this r command = Returns (this', (Some p, None))
    /\ p = newPacket (request_id r) typ B
    /\ Body p = B
    /\ size (Header p) = body_length B + 10.
Proof.
  intros Ha Hc Ho Hw Hi Ht Hmax Hsuf.
  unfold Execute. rewrite send_authorized by (right; exact Ha).
  rewrite Hc. cbn zeta. rewrite conn_Write_complete by assumption.
  rewrite Nat.eqb_refl.
  erewrite (receive_packet this exec (request_id r) _
              (newPacket (request_id r) typ B) [] rest).
  - eexists. eexists. split; [reflexivity|].
    split; [reflexivity|]. split; [reflexivity|].
    apply newPacket_size, Hmax.
  - exact Ho.
  - cbn [incoming]. rewrite app_nil_r. exact Hi.
  - apply request_id_in_range.
  - exact Ht.
  - apply newPacket_size, Hmax.
  - exact Hmax.
  - reflexivity.
  - reflexivity.
  - exact Hsuf.
Qed.

Lemma round_trip_witness :
  exists this' p,
    Execute (echo 7 responseValue "hostname: srv")
            [Data (PutUint32 7)] "status"
    = Returns (this', (Some p, None))
    /\ p = newPacket 7 responseValue "hostname: srv"
    /\ Body p = "hostname: srv"%string
    /\ size (Header p) = 23.
Proof.
  apply (round_trip (echo 7 responseValue "hostname: srv")
           [Data (PutUint32 7)] "status"
           (mkConn [Data (payload_of (newPacket 7 responseValue
                                        "hostname: srv"))] [] [] 0)
           responseValue "hostname: srv" []).
  - reflexivity.
  - reflexivity.
  - reflexivity.
  - reflexivity.
  - reflexivity.
  - unfold in_range, responseValue, min_int, max_int, half. lia.
  - vm_compute. discriminate.
  - reflexivity.
Defined.

(** C1 as stated fails on a body that ends with a NUL byte: the body
    decoded from the encoding of [body_with_NUL] is ["a"]. *)
Lemma round_trip_trailing_NUL :
  exists this' p,
    Execute (echo 7 responseValue body_with_NUL) [Data (PutUint32 7)] "status"
    = Returns (this', (Some p, None))
    /\ Body p = "a"%string
    /\ Body p <> body_with_NUL.
Proof.
  eexists. eexists.
  split; [vm_compute; reflexivity|].
  split; [reflexivity|]. cbn [Body]. discriminate.
Qed.

(** C7, as amended.  [compile] writes the size, the id and the type, four
    bytes each with the least significant byte first, then the bytes of
    the body, then two NUL bytes, and reports no error; the size that
    [newPacket] places is the byte length of the body plus 10 when that
    sum is within the 32-bit signed range. *)
Theorem compile_wire_format :
  (forall p : Packet,
      compile p =
      (PutUint32 (size (Header p)) ++ PutUint32 (challenge (Header p))
       ++ PutUint32 (headerType (Header p))
       ++ list_byte_of_string (Body p) ++ [x00; x00], None))
  /\ (forall v : Z,
         List.length (PutUint32 v) = 4%nat
         /\ forall i : nat, (i < 4)%nat ->
              Z_of_byte (nth i (PutUint32 v) x00)
              = (v / 2 ^ (8 * Z.of_nat i)) mod 2 ^ 8)
  /\ (forall (id typ : Z) (B : string),
         body_length B + 10 <= max_int ->
         newPacket id typ B
         = mkPacket (mkHeader (body_length B + 10) id typ) B).
Proof.
  split; [exact compile_eq|]. split.
  - intros v. split; [reflexivity|]. intros i Hi. apply PutUint32_nth, Hi.
  - intros id typ B H. unfold newPacket. f_equal. f_equal.
    apply (newPacket_size id typ B H).
Qed.

Lemma compile_wire_format_witness :
  newPacket 7 auth "pw" = mkPacket (mkHeader 12 7 auth) "pw"
  /\ compile (newPacket 7 auth "pw")
     = ([x0c; x00; x00; x00; x07; x00; x00; x00; x03; x00; x00; x00;
         "p"%byte; "w"%byte; x00; x00], None).
Proof.
  split.
  - apply (proj2 (proj2 compile_wire_format) 7 auth "pw"%string).
    vm_compute. discriminate.
  - rewrite (proj1 compile_wire_format). reflexivity.
Defined.

(** C7 as stated fails on a body of [2^31 - 10] bytes: the sum does not
    fit an [int32] and the size placed is [-2^31]. *)
Lemma newPacket_size_overflow :
  body_length long_body = 2147483638
  /\ size (Header (newPacket 0 exec long_body)) = -2147483648
  /\ size (Header (newPacket 0 exec long_body)) <> body_length long_body + 10.
Proof.
  assert (H : body_length long_body = 2147483638).
  { unfold long_body. rewrite body_length_repeat. apply Z2Nat.id. lia. }
  rewrite newPacket_size_wrap, H.
  split; [reflexivity|]. split; [reflexivity|]. vm_compute. discriminate.
Qed.

(** ** What a call returns *)

Lemma Read_buffer_length (r : stream) (buf : list byte) :
  List.length (snd (fst (Read r buf))) = List.length buf.
Proof.
  unfold Read. destruct buf as [|x buf]; [reflexivity|].
  destruct r as [|[bs|e] r']; try reflexivity.
  destruct (_ <=? _)%nat eqn:E; cbn [fst snd].
  - apply Nat.leb_le in E. unfold fill.
    rewrite length_app, length_skipn. lia.
  - apply Nat.leb_gt in E. rewrite length_firstn. lia.
Qed.

Lemma conn_Read_spec (c : Conn) (buf : list byte) :
  let '(n, err, buf', c') := conn_Read c buf in
  List.length buf' = List.length buf
  /\ closes c' = closes c /\ sent c' = sent c.
Proof.
  unfold conn_Read. destruct (0 <? closes c)%nat; [auto|].
  pose proof (Read_buffer_length (incoming c) buf) as H.
  destruct (Read (incoming c) buf) as [[[n err] buf'] r']. cbn in H. auto.
Qed.

Lemma conn_binary_Read_spec (c : Conn) (v : Z) :
  let '(w, err, c') := conn_binary_Read c v in
  closes c' = closes c /\ sent c' = sent c.
Proof.
  unfold conn_binary_Read. destruct (0 <? closes c)%nat; [auto|].
  destruct (binary_Read (incoming c) v) as [[w err] r']. auto.
Qed.

Lemma decodeHeader_spec (c : Conn) :
  let '(h, err, c') := decodeHeader c in
  closes c' = closes c /\ sent c' = sent c.
Proof.
  unfold decodeHeader.
  pose proof (conn_binary_Read_spec c 0) as H1.
  destruct (conn_binary_Read c 0) as [[s [e1|]] c1]; [exact H1|].
  pose proof (conn_binary_Read_spec c1 0) as H2.
  destruct (conn_binary_Read c1 0) as [[i [e2|]] c2];
    [destruct H1, H2; split; congruence|].
  pose proof (conn_binary_Read_spec c2 0) as H3.
  destruct (conn_binary_Read c2 0) as [[t e3] c3].
  destruct H1, H2, H3; split; congruence.
Qed.

Lemma conn_Write_spec (c : Conn) (p : list byte) :
  let '(n, err, c') := conn_Write c p in
  closes c' = closes c
  /\ (sent c' = sent c \/ sent c' = sent c ++ [firstn n p]).
Proof.
  unfold conn_Write. destruct (0 <? closes c)%nat; [auto|].
  destruct (writes c) as [|[|n err] ws]; cbn [closes sent];
    rewrite ?firstn_all; auto.
Qed.

Lemma fails_clean (this : Client) (id : Z) (c c' : Conn) (e : error)
    (this' : Client) (res : results) :
  closes c' = closes c ->
  fails this c' (Some e) = Returns (this', res) ->
  clean_results this id c this' res.
Proof.
  unfold fails. intros Hc H. injection H as <- <-.
  split; [eauto|]. right. eauto.
Qed.

Lemma evaluate_clean (this : Client) (id : Z) (h : header) (c : Conn)
    (this' : Client) (res : results) :
  evaluate this id h c = Returns (this', res) ->
  clean_results this id c this' res.
Proof.
  unfold evaluate.
  destruct (challenge h =? id) eqn:Eid;
    [|apply fails_clean; reflexivity].
  apply Z.eqb_eq in Eid.
  unfold make. destruct (_ <? 0) eqn:Eneg; [discriminate|].
  apply Z.ltb_ge in Eneg.
  set (body := repeat x00 _).
  pose proof (conn_Read_spec c body) as Hr.
  destruct (conn_Read c body) as [[[n [e|]] body'] c'].
  - apply fails_clean. apply Hr.
  - destruct (n =? List.length body)%nat;
      [|apply fails_clean; apply Hr].
    intros H. injection H as <- <-. destruct Hr as (Hl & Hc & _).
    split; [eauto|]. left. exists (mkPacket h (TrimRight
      (string_of_list_byte body') terminationSequence)), body'.
    cbn [Header Body]. repeat split; try assumption.
    rewrite Hl. unfold body. apply repeat_length.
Qed.

Lemma evaluate_next_clean (this : Client) (id : Z) (c0 c : Conn)
    (this' : Client) (res : results) :
  closes c = closes c0 ->
  evaluate_next this id c = Returns (this', res) ->
  clean_results this id c0 this' res.
Proof.
  unfold evaluate_next. intros Hc0.
  pose proof (decodeHeader_spec c) as Hd.
  destruct (decodeHeader c) as [[h [e|]] c'].
  - apply fails_clean. destruct Hd. congruence.
  - intros H. apply evaluate_clean in H.
    destruct H as ((c2 & -> & Hc2) & Hres). destruct Hd as [Hd _].
    split; [exists c2; split; [reflexivity|congruence]|exact Hres].
Qed.

Lemma receive_clean (this : Client) (typ id : Z) (c0 c : Conn)
    (this' : Client) (res : results) :
  closes c = closes c0 ->
  receive this typ id c = Returns (this', res) ->
  clean_results this id c0 this' res.
Proof.
  unfold receive. intros Hc0.
  pose proof (decodeHeader_spec c) as Hd.
  destruct (decodeHeader c) as [[h [e|]] c'].
  - apply fails_clean. destruct Hd. congruence.
  - destruct Hd as [Hd _].
    destruct ((typ =? auth) && (headerType h =? responseValue)).
    + destruct (make _) as [buf|]; [|discriminate].
      pose proof (conn_Read_spec c' buf) as Hr.
      destruct (conn_Read c' buf) as [[[n e] buf'] c2].
      apply evaluate_next_clean. destruct Hr as (_ & Hr & _). congruence.
    + intros H. apply evaluate_clean in H.
      destruct H as ((c2 & -> & Hc2) & Hres).
      split; [exists c2; split; [reflexivity|congruence]|exact Hres].
Qed.

(** Every return of [send]: the guard has refused the request and the
    client is untouched, or the exchange has been run on the connection. *)
Lemma send_clean (this : Client) (r : stream) (typ : Z) (command : string)
    (this' : Client) (res : results) :
  send this r typ command = Returns (this', res) ->
  (this' = this /\ res = (None, Some ErrUnauthorizedRequest)
   /\ typ <> auth /\ authorized this = false)
  \/ (exists c, connection this = Some c
                /\ clean_results this (request_id r) c this' res).
Proof.
  rewrite send_protocol_eq. unfold send_protocol.
  destruct (typ =? auth) eqn:Et; cbn [negb andb].
  2:destruct (authorized this) eqn:Ea; cbn [negb].
  3:{ intros H. injection H as <- <-. left. apply Z.eqb_neq in Et. auto. }
  all: destruct (connection this) as [c|]; [|discriminate].
  all: intros H; right; exists c; split; [reflexivity|]; revert H.
  all: set (payload := payload_of _).
  all: pose proof (conn_Write_spec c payload) as Hw.
  all: destruct (conn_Write c payload) as [[n [e|]] c1];
    [apply fails_clean; apply Hw|].
  all: destruct (n =? List.length payload)%nat;
    [apply receive_clean; apply Hw|apply fails_clean; apply Hw].
Qed.

Lemma send_keeps_authorized (this : Client) (r : stream) (typ : Z)
    (command : string) (this' : Client) (res : results) :
  send this r typ command = Returns (this', res) ->
  authorized this' = authorized this.
Proof.
  intros H. apply send_clean in H.
  destruct H as [(-> & _)|(c & _ & (c' & -> & _) & _)]; reflexivity.
Qed.

Lemma send_refused (this : Client) (r : stream) (typ : Z) (command : string) :
  typ <> auth -> authorized this = false ->
  send this r typ command
  = Returns (this, (None, Some ErrUnauthorizedRequest)).
Proof.
  intros Ht Ha. unfold send. apply Z.eqb_neq in Ht. rewrite Ht, Ha.
  reflexivity.
Qed.

(** ** Errors of the session *)

(** C3.  On a session whose [authorized] flag is false, [Execute] returns
    a nil response with [ErrUnauthorizedRequest] and the client as it was:
    its connection, with the log of the bytes written and the stream
    still to read, is untouched. *)
Theorem execute_unauthorized (this : Client) (r : stream) (command : string) :
  authorized this = false ->
  Execute this r command
  = Returns (this, (None, Some ErrUnauthorizedRequest)).
Proof.
  intros H. apply send_refused; [discriminate|exact H].
Qed.

Lemma execute_unauthorized_witness :
  Execute (mkClient "localhost" 27015 false (Some (fresh_connection [])))
          [Data (PutUint32 7)] "status"
  = Returns (mkClient "localhost" 27015 false (Some (fresh_connection [])),
             (None, Some ErrUnauthorizedRequest)).
Proof.
  apply (execute_unauthorized
           (mkClient "localhost" 27015 false (Some (fresh_connection [])))).
  reflexivity.
Defined.

(** Every [Authorize] or [Execute] call that returns, returns either a
    packet with a nil error, the packet mirroring the challenge of the
    request and its body read in full, or a nil packet with a non-nil
    error; no return carries both a packet and an error. *)
Theorem no_partial_success (this : Client) (r : stream) (s : string)
    (this' : Client) (response : option Packet) (err : option error) :
  Authorize this r s = Returns (this', (response, err))
  \/ Execute this r s = Returns (this', (response, err)) ->
  (exists p raw,
      response = Some p /\ err = None
      /\ challenge (Header p) = request_id r
      /\ List.length raw = Z.to_nat (sub (size (Header p)) packetHeaderSize)
      /\ Body p = TrimRight (string_of_list_byte raw) terminationSequence)
  \/ (response = None /\ exists e, err = Some e).
Proof.
  assert (Hsend : forall typ this1 res,
             send this r typ s = Returns (this1, res) ->
             (exists p raw,
                 res = (Some p, None)
                 /\ challenge (Header p) = request_id r
                 /\ List.length raw
                    = Z.to_nat (sub (size (Header p)) packetHeaderSize)
                 /\ Body p = TrimRight (string_of_list_byte raw)
                                       terminationSequence)
             \/ (exists e, res = (None, Some e))).
  { intros typ this1 res H. apply send_clean in H.
    destruct H as [(_ & -> & _)|(c & _ & _ & H)]; [right; eauto|exact H]. }
  intros [H|H].
  - unfold Authorize in H.
    destruct (send this r auth s) as [[this1 [resp1 err1]]|] eqn:E;
      [|discriminate].
    apply Hsend in E.
    destruct E as [(p & raw & E & Hid & Hl & Hb)|(e & E)];
      injection E as -> ->.
    + destruct (headerType (Header p) =? authResponse);
        injection H as <- <- <-.
      * left. exists p, raw. auto.
      * right. eauto.
    + injection H as <- <- <-. right. eauto.
  - unfold Execute in H. apply Hsend in H.
    destruct H as [(p & raw & E & Hid & Hl & Hb)|(e & E)];
      injection E as -> ->.
    + left. exists p, raw. auto.
    + right. eauto.
Qed.

Lemma no_partial_success_witness :
  (exists p raw,
      Some (newPacket 7 responseValue "hostname: srv") = Some p
      /\ @None error = None
      /\ challenge (Header p) = request_id [Data (PutUint32 7)]
      /\ List.length raw = Z.to_nat (sub (size (Header p)) packetHeaderSize)
      /\ Body p = TrimRight (string_of_list_byte raw) terminationSequence)
  \/ (Some (newPacket 7 responseValue "hostname: srv") = None
      /\ exists e, @None error = Some e).
Proof.
  apply (no_partial_success (echo 7 responseValue "hostname: srv")
           [Data (PutUint32 7)] "status"
           (mkClient "localhost" 27015 true
              (Some (mkConn [] []
                       [payload_of (newPacket 7 exec "status")] 0)))).
  right. vm_compute. reflexivity.
Defined.

(** Calls that return nothing at all: [Execute] panics when the size
    field of the response is below 8, as the length of the body to
    allocate is negative, and [Authorize] panics on a client that has no
    connection. *)
Lemma calls_that_panic :
  Execute undersized_reply [Data (PutUint32 7)] "status" = Panics
  /\ Authorize (fst (NewClient "localhost" 27015)) [Data (PutUint32 7)] "pw"
     = Panics.
Proof. split; vm_compute; reflexivity. Qed.

(** C8.  The code at the failing input: an authorized client sends an
    EXECCOMMAND with the challenge 7, and the server answers with the
    twelve bytes of a header of size 0, id 7 and type 0.  The header
    mirrors the challenge, the length [size - 8] of the body to allocate
    is negative, and [Execute] panics: the call returns neither a packet
    nor an error, where every other failure of the exchange is returned
    as an error. *)
Theorem undersized_reply_panics :
  Execute undersized_reply challenge7 "status" = Panics
  /\ (forall this' res,
         Execute undersized_reply challenge7 "status"
         <> Returns (this', res))
  /\ sub (size (mkHeader 0 7 responseValue)) packetHeaderSize = -8.
Proof.
  assert (H : Execute undersized_reply challenge7 "status" = Panics)
    by (vm_compute; reflexivity).
  split; [exact H|]. split; [|reflexivity].
  intros this' res. rewrite H. discriminate.
Qed.

(** ** The authorization state *)

(** C5.  A new client is not authorized.  A call leaves an authorized
    client authorized, and a client that was not authorized is so after a
    call only when the call is an [Authorize] that returned, with a nil
    error, a packet of type SERVERDATA_AUTH_RESPONSE that mirrors the
    challenge.  When the exchange of an [Authorize] ends with a packet of
    another type, the call returns [ErrFailedAuthorization] with a nil
    packet and the flag is as before; if it was false, every later
    [Execute] returns [ErrUnauthorizedRequest]. *)
Theorem authorized_flag :
  (forall host port, authorized (fst (NewClient host port)) = false)
  /\ (forall this c this' res,
         perform this c = Returns (this', res) ->
         (authorized this = true -> authorized this' = true)
         /\ (authorized this = false -> authorized this' = true ->
             exists r password p,
               c = CallAuthorize r password
               /\ res = (Some p, None)
               /\ headerType (Header p) = authResponse
               /\ challenge (Header p) = request_id r))
  /\ (forall this r password this1 p,
         send this r auth password = Returns (this1, (Some p, None)) ->
         headerType (Header p) <> authResponse ->
         Authorize this r password
         = Returns (this1, (None, Some ErrFailedAuthorization))
         /\ authorized this1 = authorized this
         /\ (authorized this = false ->
             forall r' command,
               Execute this1 r' command
               = Returns (this1, (None, Some ErrUnauthorizedRequest)))).
Proof.
  split; [reflexivity|]. split.
  - intros this c this' res H. destruct c as [dial|r pw|r cmd|]; cbn in H.
    + destruct dial as [conn err]. injection H as <- <-. cbn.
      split; [auto|congruence].
    + unfold Authorize in H.
      destruct (send this r auth pw) as [[this1 [resp1 err1]]|] eqn:E;
        [|discriminate].
      pose proof (send_keeps_authorized _ _ _ _ _ _ E) as Ha.
      destruct err1 as [e|].
      { injection H as <- <-. rewrite Ha. split; [auto|congruence]. }
      destruct resp1 as [p|]; [|discriminate].
      destruct (headerType (Header p) =? authResponse) eqn:Et.
      * injection H as <- <-. cbn. split; [auto|]. intros _ _.
        apply send_clean in E.
        destruct E as [(_ & E & _)|(c & _ & _ & E)]; [discriminate|].
        destruct E as [(p' & raw & E & Hid & _)|(e & E)]; [|discriminate].
        injection E as <-. apply Z.eqb_eq in Et.
        exists r, pw, p. auto.
      * injection H as <- <-. rewrite Ha. split; [auto|congruence].
    + unfold Execute in H. apply send_keeps_authorized in H. rewrite H.
      split; [auto|congruence].
    + injection H as <- <-. unfold Disconnect.
      destruct (connection this); cbn; split; auto; congruence.
  - intros this r pw this1 p E Ht.
    pose proof (send_keeps_authorized _ _ _ _ _ _ E) as Ha.
    unfold Authorize. rewrite E.
    apply Z.eqb_neq in Ht. rewrite Ht.
    split; [reflexivity|]. split; [exact Ha|].
    intros Hf r' command. apply send_refused; [discriminate|congruence].
Qed.

Lemma authorized_flag_witness :
  Authorize rejecting_server [Data (PutUint32 7)] "wrong"
  = Returns (mkClient "localhost" 27015 false
               (Some (mkConn [] [] [payload_of (newPacket 7 auth "wrong")] 0)),
             (None, Some ErrFailedAuthorization))
  /\ (authorized rejecting_server = true ->
      authorized (mkClient "localhost" 27015 false
               (Some (mkConn [] [] [payload_of (newPacket 7 auth "wrong")] 0)))
      = true).
Proof.
  split.
  - apply (proj2 (proj2 authorized_flag) rejecting_server
             [Data (PutUint32 7)] "wrong"%string _ (newPacket 7 5 "")).
    + vm_compute. reflexivity.
    + vm_compute. discriminate.
  - apply (proj1 (proj2 authorized_flag) rejecting_server
             (CallAuthorize [Data (PutUint32 7)] "wrong") _
             (None, Some ErrFailedAuthorization)).
    vm_compute. reflexivity.
Defined.

(** ** The exchange after the request has been written *)

Section Exchange.

Variables (this : Client) (r : stream) (typ : Z) (command : string).
Variables (c c1 : Conn).

(** The guard lets the request through, the client has the connection
    [c], and the write of the whole payload leaves it as [c1]. *)
Hypothesis guard : typ = auth \/ authorized this = true.
Hypothesis connected : connection this = Some c.
Hypothesis written :
  conn_Write c (payload_of (newPacket (request_id r) typ command))
  = (List.length (payload_of (newPacket (request_id r) typ command)),
     None, c1).

Lemma send_receives :
  send this r typ command = receive this typ (request_id r) c1.
Proof.
  rewrite send_authorized by exact guard. rewrite connected. cbn zeta.
  rewrite written, Nat.eqb_refl. reflexivity.
Qed.

Lemma quirk_condition (h : header) :
  (typ =? auth) && (headerType h =? responseValue) = true
  <-> typ = auth /\ headerType h = responseValue.
Proof.
  rewrite andb_true_iff, !Z.eqb_eq. reflexivity.
Qed.


(** C6.  When the header that [send] evaluates, the first one or after an
    empty acknowledgment to an AUTH the second one, carries an id other
    than the challenge of the request, [send] returns a nil packet with
    [ErrInvalidChallenge], and the connection is as the decoding of that
    header left it: nothing of the body has been read. *)
Theorem invalid_challenge (h1 : header) (c2 : Conn) :
  decodeHeader c1 = (h1, None, c2) ->
  (~ (typ = auth /\ headerType h1 = responseValue) ->
   challenge h1 <> request_id r ->
   send this r typ command
   = Returns (set_connection this (Some c2),
              (None, Some ErrInvalidChallenge)))
  /\ (typ = auth /\ headerType h1 = responseValue ->
      forall buf n e buf' c3 h2 c4,
        make (sub (size h1) packetHeaderSize) = Returns buf ->
        conn_Read c2 buf = (n, e, buf', c3) ->
        decodeHeader c3 = (h2, None, c4) ->
        challenge h2 <> request_id r ->
        send this r typ command
        = Returns (set_connection this (Some c4),
                   (None, Some ErrInvalidChallenge))).
Proof.
  intros Hd. rewrite send_receives. unfold receive. rewrite Hd. split.
  - intros Hq Hid. rewrite <- quirk_condition in Hq.
    apply not_true_is_false in Hq. rewrite Hq.
    unfold evaluate. apply Z.eqb_neq in Hid. rewrite Hid. reflexivity.
  - intros Hq buf n e buf' c3 h2 c4 Hm Hr Hd2 Hid.
    apply quirk_condition in Hq. rewrite Hq, Hm, Hr.
    unfold evaluate_next. rewrite Hd2.
    unfold evaluate. apply Z.eqb_neq in Hid. rewrite Hid. reflexivity.
Qed.

(** C10.  In the branch of the empty acknowledgment to an AUTH, whatever
    the read into the discard buffer returns, be it an error or a count
    short of the buffer, [send] returns nothing at that step: it goes on
    to decode the next header on the connection as that read left it, and
    its results are those of that decoding and evaluation. *)
Theorem discard_unchecked (h1 : header) (c2 : Conn) (buf : list byte)
    (n : nat) (err : option error) (buf' : list byte) (c3 : Conn) :
  decodeHeader c1 = (h1, None, c2) ->
  typ = auth -> headerType h1 = responseValue ->
  make (sub (size h1) packetHeaderSize) = Returns buf ->
  conn_Read c2 buf = (n, err, buf', c3) ->
  send this r typ command =
  let '(h2, err2, c4) := decodeHeader c3 in
  match err2 with
  | Some _ => Returns (set_connection this (Some c4), (None, err2))
  | None => evaluate this (request_id r) h2 c4
  end.
Proof.
  intros Hd Ht Hh Hm Hr. rewrite send_receives. unfold receive.
  rewrite Hd, Ht, Hh, Hm, Hr. cbn [Z.eqb andb].
  unfold evaluate_next, fails. change (3 =? 3) with true. cbn [andb].
  destruct (decodeHeader c3) as [[h2 [e2|]] c4]; reflexivity.
Qed.

End Exchange.


Lemma invalid_challenge_witness :
  send (quirk_client 8) [Data (PutUint32 7)] auth "pw"
  = Returns (set_connection (quirk_client 8)
               (Some (after_write [x00; x00])),
             (None, Some ErrInvalidChallenge)).
Proof.
  apply (proj2 (invalid_challenge (quirk_client 8) [Data (PutUint32 7)]
                  auth "pw"
                  (fresh_connection (auth_replies 8))
                  (after_write (auth_replies 8))
                  (or_introl eq_refl) eq_refl eq_refl
                  (mkHeader 10 7 responseValue)
                  (after_write ([x00; x00]
                                ++ payload_of (newPacket 8 authResponse "")))
                  eq_refl)
           (conj eq_refl eq_refl)
           [x00; x00] 2%nat None [x00; x00]
           (after_write (payload_of (newPacket 8 authResponse "")))
           (mkHeader 10 8 authResponse)).
  - reflexivity.
  - reflexivity.
  - reflexivity.
  - vm_compute. discriminate.
Defined.

Lemma discard_unchecked_witness :
  send (mkClient "localhost" 27015 false (Some broken_discard))
       [Data (PutUint32 7)] auth "pw"
  = Returns (after_exchange, (Some (newPacket 7 authResponse ""), None)).
Proof.
  rewrite (discard_unchecked
             (mkClient "localhost" 27015 false (Some broken_discard))
             [Data (PutUint32 7)] auth "pw" broken_discard
             (mkConn (incoming broken_discard) []
                [payload_of (newPacket 7 auth "pw")] 0)
             (or_introl eq_refl) eq_refl eq_refl
             (mkHeader 10 7 responseValue)
             (mkConn [Broken (ErrNet 104);
                      Data (payload_of (newPacket 7 authResponse ""))] []
                [payload_of (newPacket 7 auth "pw")] 0)
             [x00; x00] 0%nat (Some (ErrNet 104)) [x00; x00]
             (after_write (payload_of (newPacket 7 authResponse "")))
             eq_refl eq_refl eq_refl eq_refl eq_refl).
  vm_compute. reflexivity.
Defined.

(** ** The challenge *)

(** C9.  When the read of the random source fails, [send] returns no
    error for it: the challenge stays 0, the request is built with the id
    0 and written to the connection, and the call goes on as a call that
    has drawn the challenge 0. *)
Theorem random_failure_unchecked (this : Client) (r : stream) (typ : Z)
    (command : string) (e : error) :
  snd (fst (binary_Read r 0)) = Some e ->
  typ = auth \/ authorized this = true ->
  request_id r = 0
  /\ send this r typ command =
     match connection this with
     | None => Panics
     | Some c =>
       let payload := payload_of (newPacket 0 typ command) in
       let '(n, err, c) := conn_Write c payload in
       match err with
       | Some _ => Returns (set_connection this (Some c), (None, err))
       | None =>
         if (n =? List.length payload)%nat then receive this typ 0 c
         else Returns (set_connection this (Some c),
                       (None, Some ErrInvalidWrite))
       end
     end
  /\ send this r typ command = send this [Data (PutUint32 0)] typ command.
Proof.
  intros Hr Hg. pose proof (request_id_failed r e Hr) as Hid.
  split; [exact Hid|].
  rewrite !send_authorized by exact Hg. rewrite Hid.
  split; reflexivity.
Qed.

Lemma random_failure_unchecked_witness :
  request_id [Broken (ErrNet 5)] = 0
  /\ send (echo 0 responseValue "ok") [Broken (ErrNet 5)] exec "status"
     = Returns (mkClient "localhost" 27015 true
                  (Some (mkConn [] []
                           [payload_of (newPacket 0 exec "status")] 0)),
                (Some (newPacket 0 responseValue "ok"), None)).
Proof.
  destruct (random_failure_unchecked (echo 0 responseValue "ok")
              [Broken (ErrNet 5)] exec "status" (ErrNet 5)
              eq_refl (or_intror eq_refl)) as (H1 & H2 & H3).
  split; [exact H1|]. rewrite H3. vm_compute. reflexivity.
Defined.

(** ** The transport *)

Lemma send_keeps_transport (this : Client) (r : stream) (typ : Z)
    (command : string) (this' : Client) (res : results) (k : nat) :
  send this r typ command = Returns (this', res) ->
  holds_transport this k -> holds_transport this' k.
Proof.
  intros H (c0 & Hc0 & Hk). apply send_clean in H.
  destruct H as [(-> & _)|(c & Hc & (c' & -> & Hcl) & _)].
  - exists c0. auto.
  - exists c'. split; [reflexivity|]. congruence.
Qed.

Ltac same_step :=
  match goal with
  | |- context [conn_binary_Read ?c ?v] =>
    destruct (conn_binary_Read c v) as [[? [?|]] ?]
  | |- context [conn_Read ?c ?b] =>
    destruct (conn_Read c b) as [[[? [?|]] ?] ?]
  | |- context [conn_Write ?c ?b] =>
    destruct (conn_Write c b) as [[? [?|]] ?]
  | |- context [make ?n] => destruct (make n)
  | |- context [if ?b then _ else _] => destruct b
  end; cbv beta iota; try reflexivity.

(** The definitions of [AtExit] are those of the package: they have the
    same outcomes. *)
Lemma send_at_exit (this : Client) (r : stream) (typ : Z) (command : string) :
  outcome_of (AtExit.send this r typ command) = send this r typ command.
Proof.
  unfold AtExit.send, send. cbv zeta.
  destruct (negb (typ =? auth) && negb (authorized this)); [reflexivity|].
  destruct (binary_Read r 0) as [[id e] r']. rewrite compile_eq.
  cbv beta iota.
  destruct (connection this) as [conn|]; [|reflexivity].
  repeat same_step.
Qed.

Lemma Authorize_at_exit (this : Client) (r : stream) (password : string) :
  outcome_of (AtExit.Authorize this r password) = Authorize this r password.
Proof.
  unfold AtExit.Authorize, Authorize. rewrite <- send_at_exit.
  destruct (AtExit.send this r auth password)
    as [[this1 [[p|] [e|]]]|this1]; cbn [outcome_of]; try reflexivity.
  destruct (headerType (Header p) =? authResponse); reflexivity.
Qed.

Lemma perform_at_exit (this : Client) (c : call) :
  outcome_of (AtExit.perform this c) = perform this c.
Proof.
  destruct c as [[conn err]|r pw|r cmd|]; cbn [AtExit.perform perform].
  - reflexivity.
  - apply Authorize_at_exit.
  - apply send_at_exit.
  - reflexivity.
Qed.

Lemma kept_same (this : Client) (c : Conn) :
  connection this = Some c -> kept this c this.
Proof.
  intros H. exists c. split; [|reflexivity].
  destruct this. cbn in *. subst. reflexivity.
Qed.

Ltac kept_here H :=
  cbn [client_of]; eexists; split; [reflexivity|];
  repeat match goal with
         | E : closes _ = closes _ |- _ => rewrite E; clear E
         end; try reflexivity; try exact H.

Ltac kept_step :=
  match goal with
  | |- context [conn_binary_Read ?c ?v] =>
    let H := fresh "H" in
    pose proof (conn_binary_Read_spec c v) as H;
    destruct (conn_binary_Read c v) as [[? [?|]] ?];
    destruct H as [H _]
  | |- context [conn_Read ?c ?b] =>
    let H := fresh "H" in
    pose proof (conn_Read_spec c b) as H;
    destruct (conn_Read c b) as [[[? [?|]] ?] ?];
    destruct H as (_ & H & _)
  | |- context [make ?n] => destruct (make n)
  | |- context [if ?b then _ else _] => destruct b
  end; cbv beta iota.

(** Wherever [send] exits, by a return or by a panic, the client holds
    the connection it held, closed as many times as it was. *)
Lemma send_exit_kept (this : Client) (r : stream) (typ : Z)
    (command : string) (c : Conn) :
  connection this = Some c ->
  kept this c (client_of (AtExit.send this r typ command)).
Proof.
  intros Hc. unfold AtExit.send. cbv zeta.
  destruct (negb (typ =? auth) && negb (authorized this));
    [apply kept_same, Hc|].
  destruct (binary_Read r 0) as [[id e] r']. rewrite compile_eq.
  cbv beta iota. rewrite Hc.
  match goal with
  | |- context [conn_Write c ?b] =>
    pose proof (conn_Write_spec c b) as Hw;
    destruct (conn_Write c b) as [[? [?|]] ?]; destruct Hw as [Hw _]
  end; cbv beta iota.
  { kept_here Hw. }
  repeat (kept_step; try solve [kept_here Hw]).
Qed.

Lemma holds_kept (this this' : Client) (c : Conn) (k : nat) :
  connection this = Some c -> closes c = k -> kept this c this' ->
  holds_transport this' k.
Proof.
  intros Hc Hk (c' & -> & Hcl). exists c'. split; [reflexivity|congruence].
Qed.

Lemma request_exit_keeps_transport (this : Client) (c : call) (k : nat) :
  is_request c = true -> holds_transport this k ->
  holds_transport (client_of (AtExit.perform this c)) k.
Proof.
  destruct c as [dial|r pw|r cmd|]; try discriminate;
    intros _ (c0 & Hc0 & Hk); cbn [AtExit.perform].
  - pose proof (send_exit_kept this r auth pw c0 Hc0) as Hs.
    apply (holds_kept this _ c0 k Hc0 Hk) in Hs.
    unfold AtExit.Authorize.
    destruct (AtExit.send this r auth pw)
      as [[this1 [[p|] [e|]]]|this1]; cbn [client_of] in *; try exact Hs.
    destruct (headerType (Header p) =? authResponse); cbn [client_of];
      [|exact Hs].
    destruct Hs as (c1 & Hc1 & Hk1). exists c1. auto.
  - apply (holds_kept this _ c0 k Hc0 Hk).
    apply send_exit_kept, Hc0.
Qed.

Lemma exit_keeps_transport (cs : list call) (this : Client) (k : nat) :
  forallb is_request cs = true ->
  holds_transport this k -> holds_transport (client_at_exit this cs) k.
Proof.
  revert this. induction cs as [|c cs IH]; intros this Hreq Hk; [exact Hk|].
  cbn in Hreq. apply andb_true_iff in Hreq. destruct Hreq as [Hc Hcs].
  pose proof (request_exit_keeps_transport this c k Hc Hk) as H.
  cbn [client_at_exit].
  destruct (AtExit.perform this c) as [[this1 res]|this1];
    cbn [client_of] in H; [apply IH; assumption|exact H].
Qed.

(** C2.  After a [Connect] that succeeds on an open transport, whatever
    [Authorize] and [Execute] calls follow, and whether the caller exits
    after the last of them or at one that panics, the client still holds
    the transport and it has not been closed; the [Disconnect] deferred to
    that exit closes it, so that it has then been closed once. *)
Theorem disconnect_closes_once (this : Client) (conn : Conn) (cs : list call)
    (this1 : Client) :
  open conn ->
  Connect this (Some conn, None) = (this1, None) ->
  forallb is_request cs = true ->
  exists c2,
    connection (client_at_exit this1 cs) = Some c2 /\ closes c2 = 0%nat
    /\ connection (Disconnect (client_at_exit this1 cs))
       = Some (conn_Close c2)
    /\ closes (conn_Close c2) = 1%nat.
Proof.
  intros Ho Hc Hreq. injection Hc as <-.
  destruct (exit_keeps_transport cs (set_connection this (Some conn)) 0 Hreq)
    as (c2 & Hc2 & Hk).
  { exists conn. auto. }
  exists c2. unfold Disconnect. rewrite Hc2. cbn. rewrite Hk. auto.
Qed.

Lemma disconnect_closes_once_witness :
  exists c2,
    connection (client_at_exit (connected_to_undersized_reply)
                  [CallExecute challenge7 "status";
                   CallAuthorize challenge7 "pw";
                   CallExecute challenge7 "status"])
    = Some c2 /\ closes c2 = 0%nat
    /\ connection (Disconnect
                     (client_at_exit (connected_to_undersized_reply)
                        [CallExecute challenge7 "status";
                         CallAuthorize challenge7 "pw";
                         CallExecute challenge7 "status"]))
       = Some (conn_Close c2)
    /\ closes (conn_Close c2) = 1%nat.
Proof.
  apply (disconnect_closes_once (fst (NewClient "localhost" 27015))
           (fresh_connection
              (wire (mkHeader 0 7 authResponse) []))
           [CallExecute challenge7 "status";
            CallAuthorize challenge7 "pw";
            CallExecute challenge7 "status"]
           connected_to_undersized_reply).
  - reflexivity.
  - reflexivity.
  - reflexivity.
Defined.

(** * Further properties of the package *)

(** ** Streams that arrive in pieces *)

(** [io.ReadFull] over arrivals of any sizes: it takes the bytes it needs
    across them and leaves the rest as arrivals. *)
Lemma ReadAtLeast_pieces (l : list (list byte)) (tail : stream)
    (acc : list byte) (n : nat) :
  nonempty l -> (n <= List.length (List.concat l))%nat ->
  exists l',
    ReadAtLeast (map Data l ++ tail) acc n
    = (acc ++ firstn n (List.concat l), None, map Data l' ++ tail)
    /\ List.concat l' = skipn n (List.concat l) /\ nonempty l'.
Proof.
  revert acc n. induction l as [|bs l IH]; intros acc n Hne Hn.
  - cbn in Hn. assert (n = 0%nat) by lia. subst n.
    exists []. cbn. rewrite app_nil_r.
    destruct tail; repeat split; constructor.
  - destruct n as [|k].
    + exists (bs :: l). cbn [ReadAtLeast map app firstn skipn].
      rewrite app_nil_r. auto.
    + inversion Hne as [|? ? Hbs Hl]; subst.
      cbn [map app List.concat ReadAtLeast] in *. rewrite length_app in Hn.
      destruct (List.length bs <=? S k)%nat eqn:E.
      * apply Nat.leb_le in E.
        destruct (IH (acc ++ bs) (S k - List.length bs)%nat Hl) as
          (l' & Hr & Hc & Hn'); [lia|].
        exists l'. rewrite Hr, <- app_assoc.
        rewrite firstn_app, (firstn_all2 (n:=S k) bs) by lia.
        rewrite skipn_app, (skipn_all2 (n:=S k) bs) by lia.
        cbn [app]. auto.
      * apply Nat.leb_gt in E.
        exists (skipn (S k) bs :: l).
        rewrite firstn_app, skipn_app.
        replace (S k - List.length bs)%nat with 0%nat by lia.
        rewrite firstn_0, skipn_0, app_nil_r. cbn [map app List.concat].
        repeat split. constructor; [|exact Hl].
        intros H. apply (f_equal (@List.length byte)) in H.
        rewrite length_skipn in H. cbn in H. lia.
Qed.

Lemma nonempty_concat_nil (l : list (list byte)) :
  nonempty l -> List.concat l = [] -> l = [].
Proof.
  intros Hne Hc. destruct l as [|bs l]; [reflexivity|].
  inversion Hne; subst. cbn in Hc. apply app_eq_nil in Hc. tauto.
Qed.

Lemma conn_binary_Read_pieces (c : Conn) (old v : Z) (l : list (list byte))
    (bs : list byte) (tail : stream) :
  open c -> nonempty l ->
  incoming c = map Data l ++ tail -> List.concat l = PutUint32 v ++ bs ->
  exists l',
    conn_binary_Read c old
    = (wrap32 v, None, set_incoming c (map Data l' ++ tail))
    /\ List.concat l' = bs /\ nonempty l'.
Proof.
  intros Ho Hne Hi Hc. unfold conn_binary_Read, binary_Read, ReadFull.
  unfold open in Ho. rewrite Ho, Hi. cbn [Nat.ltb Nat.leb].
  destruct (ReadAtLeast_pieces l tail [] 4 Hne) as (l' & Hr & Hc' & Hn').
  { rewrite Hc, length_app. cbn. lia. }
  rewrite Hr. cbn [app]. rewrite Hc in *.
  change 4%nat with (List.length (PutUint32 v)) in *.
  rewrite firstn_app, firstn_all, Nat.sub_diag, firstn_0, app_nil_r.
  rewrite skipn_app, skipn_all, Nat.sub_diag in Hc'. cbn in Hc'.
  rewrite Uint32_PutUint32, wrap32_mod. exists l'. auto.
Qed.

Lemma set_incoming_twice (c : Conn) (r1 r2 : stream) :
  set_incoming (set_incoming c r1) r2 = set_incoming c r2.
Proof. reflexivity. Qed.

(** A header is decoded from its twelve bytes however they are split
    into arrivals. *)
Lemma decodeHeader_pieces (c : Conn) (h : header) (l : list (list byte))
    (tail : stream) :
  open c -> nonempty l -> header_in_range h ->
  incoming c = map Data l ++ tail -> List.concat l = wire h [] ->
  decodeHeader c = (h, None, set_incoming c tail).
Proof.
  intros Ho Hne (Hs & Hi & Ht) Hin Hc. unfold wire in Hc.
  destruct h as [s i t]. cbn [size challenge headerType] in *.
  unfold decodeHeader.
  destruct (conn_binary_Read_pieces c 0 s l _ tail Ho Hne Hin Hc)
    as (l1 & -> & Hc1 & Hn1).
  destruct (conn_binary_Read_pieces (set_incoming c (map Data l1 ++ tail))
              0 i l1 _ tail Ho Hn1 eq_refl Hc1) as (l2 & -> & Hc2 & Hn2).
  rewrite set_incoming_twice.
  destruct (conn_binary_Read_pieces (set_incoming c (map Data l2 ++ tail))
              0 t l2 [] tail Ho Hn2 eq_refl Hc2) as (l3 & -> & Hc3 & Hn3).
  rewrite set_incoming_twice, !wrap32_id by assumption.
  rewrite (nonempty_concat_nil l3 Hn3 Hc3). reflexivity.
Qed.

(** ** The body of a reply *)

Lemma evaluate_arrival (this : Client) (id : Z) (h : header) (c : Conn)
    (raw more : list byte) (tail : stream) :
  open c -> incoming c = Data (raw ++ more) :: tail -> raw <> [] ->
  challenge h = id ->
  sub (size h) packetHeaderSize = Z.of_nat (List.length raw) ->
  evaluate this id h c
  = Returns (set_connection this (Some (set_incoming c (advance more tail))),
             (Some (assembled h raw), None)).
Proof.
  intros Ho Hi Hr Hid Hs. unfold evaluate.
  rewrite Hid, Z.eqb_refl, Hs, make_length by lia.
  rewrite (conn_Read_arrival c raw more _ tail Ho Hi Hr)
    by (rewrite repeat_length; lia).
  rewrite repeat_length, Nat2Z.id, Nat.eqb_refl. reflexivity.
Qed.

Lemma evaluate_short (this : Client) (id : Z) (h : header) (c : Conn)
    (bs : list byte) (tail : stream) :
  open c -> incoming c = Data bs :: tail ->
  challenge h = id ->
  Z.of_nat (List.length bs) < sub (size h) packetHeaderSize ->
  evaluate this id h c
  = Returns (set_connection this (Some (set_incoming c tail)),
             (None, Some ErrInvalidRead)).
Proof.
  intros Ho Hi Hid Hs. unfold evaluate.
  rewrite Hid, Z.eqb_refl, make_length by lia.
  unfold conn_Read, open in *. rewrite Ho, Hi. cbn [Nat.ltb Nat.leb].
  set (k := Z.to_nat (sub (size h) packetHeaderSize)).
  assert (Hk : (List.length bs < k)%nat) by lia.
  destruct k as [|k]; [lia|]. cbn [repeat Read].
  change (x00 :: repeat x00 k) with (repeat x00 (S k)).
  rewrite repeat_length.
  destruct (List.length bs <=? S k)%nat eqn:E;
    [|apply Nat.leb_gt in E; lia].
  destruct (List.length bs =? S k)%nat eqn:E2;
    [apply Nat.eqb_eq in E2; lia|].
  reflexivity.
Qed.

Lemma set_incoming_same (c : Conn) : set_incoming c (incoming c) = c.
Proof. destruct c. reflexivity. Qed.

Lemma evaluate_empty (this : Client) (id : Z) (h : header) (c : Conn) :
  open c -> challenge h = id ->
  sub (size h) packetHeaderSize = 0 ->
  evaluate this id h c
  = Returns (set_connection this (Some c), (Some (mkPacket h ""), None)).
Proof.
  intros Ho Hid Hs. unfold evaluate.
  rewrite Hid, Z.eqb_refl, Hs. cbn [make Z.ltb Z.compare Z.to_nat repeat].
  unfold conn_Read, open in *. rewrite Ho. cbn [Nat.ltb Nat.leb Read].
  rewrite set_incoming_same. reflexivity.
Qed.

Lemma evaluate_panics (this : Client) (id : Z) (h : header) (c : Conn) :
  evaluate this id h c = Panics
  <-> challenge h = id /\ sub (size h) packetHeaderSize < 0.
Proof.
  unfold evaluate, fails, make. split.
  - destruct (challenge h =? id) eqn:Eid; [|discriminate].
    apply Z.eqb_eq in Eid.
    destruct (_ <? 0) eqn:En; [apply Z.ltb_lt in En; auto|].
    destruct (conn_Read c _) as [[[n [e|]] b] c']; [discriminate|].
    destruct (n =? _)%nat; discriminate.
  - intros [Hid Hn]. apply Z.eqb_eq in Hid. apply Z.ltb_lt in Hn.
    rewrite Hid, Hn. reflexivity.
Qed.

Section Reply.

Variables (this : Client) (r : stream) (typ : Z) (command : string).
Variables (c c1 c2 : Conn) (h : header).

(** The request has been written in full, leaving the connection as [c1],
    and the first header decoded is [h], leaving the connection as [c2];
    the request is not an AUTH, or [h] is not an empty acknowledgment. *)
Hypothesis guard : typ = auth \/ authorized this = true.
Hypothesis connected : connection this = Some c.
Hypothesis written :
  conn_Write c (payload_of (newPacket (request_id r) typ command))
  = (List.length (payload_of (newPacket (request_id r) typ command)),
     None, c1).
Hypothesis decoded : decodeHeader c1 = (h, None, c2).
Hypothesis plain : typ <> auth \/ headerType h <> responseValue.

Lemma send_evaluates :
  send this r typ command = evaluate this (request_id r) h c2.
Proof.
  rewrite (send_receives this r typ command c c1 guard connected written).
  unfold receive. rewrite decoded.
  destruct ((typ =? auth) && (headerType h =? responseValue)) eqn:E;
    [|reflexivity].
  apply andb_true_iff in E. rewrite !Z.eqb_eq in E. tauto.
Qed.

(** X1.  When the header mirrors the challenge and the [size - 8] bytes
    that it announces have arrived together, [send] returns the header as
    decoded with those bytes, stripped of their trailing NUL bytes, as the
    body, and leaves on the connection what follows them. *)
Theorem reply_returned (raw more : list byte) (tail : stream) :
  open c2 -> incoming c2 = Data (raw ++ more) :: tail -> raw <> [] ->
  challenge h = request_id r ->
  sub (size h) packetHeaderSize = Z.of_nat (List.length raw) ->
  send this r typ command
  = Returns (set_connection this (Some (set_incoming c2 (advance more tail))),
             (Some (assembled h raw), None)).
Proof.
  intros. rewrite send_evaluates. apply evaluate_arrival; assumption.
Qed.

(** X2.  When the header mirrors the challenge and the arrival at the
    head of the stream holds fewer bytes than the [size - 8] announced,
    [send] takes that arrival and returns [ErrInvalidRead] with a nil
    packet: it does not wait for the rest of the body. *)
Theorem reply_body_in_pieces (bs : list byte) (tail : stream) :
  open c2 -> incoming c2 = Data bs :: tail ->
  challenge h = request_id r ->
  Z.of_nat (List.length bs) < sub (size h) packetHeaderSize ->
  send this r typ command
  = Returns (set_connection this (Some (set_incoming c2 tail)),
             (None, Some ErrInvalidRead)).
Proof.
  intros. rewrite send_evaluates.
  apply (evaluate_short _ _ _ _ bs); assumption.
Qed.

(** X3.  When the header mirrors the challenge and its size is 8, [send]
    returns it with an empty body and reads nothing more, whatever the
    connection holds. *)
Theorem reply_without_body :
  open c2 -> challenge h = request_id r -> size h = 8 ->
  send this r typ command
  = Returns (set_connection this (Some c2), (Some (mkPacket h ""), None)).
Proof.
  intros Ho Hid Hs. rewrite send_evaluates.
  apply evaluate_empty; [assumption|assumption|]. rewrite Hs. reflexivity.
Qed.

(** X4.  [send] panics on the reply exactly when the header mirrors the
    challenge and [size - 8], in 32-bit arithmetic, is negative: a header
    with another id gives [ErrInvalidChallenge] whatever its size. *)
Theorem reply_panics :
  send this r typ command = Panics
  <-> challenge h = request_id r /\ sub (size h) packetHeaderSize < 0.
Proof.
  rewrite send_evaluates. apply evaluate_panics.
Qed.

End Reply.

(** ** The request on the wire *)

Lemma conn_Write_incoming (c : Conn) (p : list byte) :
  incoming (snd (conn_Write c p)) = incoming c.
Proof.
  unfold conn_Write. destruct (0 <? closes c)%nat; [reflexivity|].
  destruct (writes c) as [|[|n err] ws]; reflexivity.
Qed.

(** X5.  When the write of the request reports an error, [send] returns
    that error, also if the count is complete; when it reports no error
    but a count other than the length of the payload, [send] returns
    [ErrInvalidWrite].  In both cases the packet is nil and nothing has
    been read from the connection. *)
Theorem write_failure (this : Client) (r : stream) (typ : Z)
    (command : string) (c c1 : Conn) (n : nat) (err : option error) :
  typ = auth \/ authorized this = true ->
  connection this = Some c ->
  conn_Write c (payload_of (newPacket (request_id r) typ command))
  = (n, err, c1) ->
  err <> None
  \/ n <> List.length (payload_of (newPacket (request_id r) typ command)) ->
  send this r typ command
  = Returns (set_connection this (Some c1),
             (None, match err with
                    | Some e => Some e
                    | None => Some ErrInvalidWrite
                    end))
    /\ incoming c1 = incoming c.
Proof.
  intros Hg Hc Hw Hf. split.
  - rewrite send_authorized by exact Hg. rewrite Hc. cbn zeta. rewrite Hw.
    destruct err as [e|]; [reflexivity|].
    destruct Hf as [Hf|Hf]; [congruence|].
    apply Nat.eqb_neq in Hf. rewrite Hf. reflexivity.
  - pose proof (conn_Write_incoming c
                  (payload_of (newPacket (request_id r) typ command))) as H.
    rewrite Hw in H. exact H.
Qed.

(** ** The header of a reply *)

Lemma receive_truncated (this : Client) (typ id : Z) (c : Conn)
    (bs : list byte) :
  open c -> incoming c = [Data bs] -> (List.length bs < 12)%nat ->
  receive this typ id c
  = Returns (set_connection this (Some (set_incoming c [])),
             (None, Some (if (List.length bs mod 4 =? 0)%nat
                          then EOF else ErrUnexpectedEOF))).
Proof.
  destruct c as [inc ws snt cl]. unfold open. cbn [incoming closes].
  intros -> -> Hl.
  unfold receive, decodeHeader, conn_binary_Read, fails.
  do 12 (destruct bs as [|? bs]; [reflexivity|]).
  cbn [List.length] in Hl. lia.
Qed.

Section Header.

Variables (this : Client) (r : stream) (typ : Z) (command : string).
Variables (c c1 : Conn).

Hypothesis guard : typ = auth \/ authorized this = true.
Hypothesis connected : connection this = Some c.
Hypothesis written :
  conn_Write c (payload_of (newPacket (request_id r) typ command))
  = (List.length (payload_of (newPacket (request_id r) typ command)),
     None, c1).
Hypothesis still_open : open c1.

(** X6.  The twelve bytes of a header may come split into arrivals of
    any sizes: [send] decodes the header from them and evaluates it on the
    connection with what follows those arrivals. *)
Theorem header_in_pieces (h : header) (l : list (list byte)) (tail : stream) :
  nonempty l -> incoming c1 = map Data l ++ tail ->
  List.concat l = wire h [] -> header_in_range h ->
  typ <> auth \/ headerType h <> responseValue ->
  send this r typ command
  = evaluate this (request_id r) h (set_incoming c1 tail).
Proof.
  intros Hne Hi Hc Hr Hp.
  apply (send_evaluates this r typ command c c1 (set_incoming c1 tail) h
           guard connected written); [|exact Hp].
  apply (decodeHeader_pieces c1 h l tail); assumption.
Qed.

(** X7.  An error of the network on the first read of the header is
    returned as it is, with a nil packet. *)
Theorem header_read_error (e : error) (tail : stream) :
  incoming c1 = Broken e :: tail ->
  send this r typ command
  = Returns (set_connection this (Some (set_incoming c1 tail)),
             (None, Some e)).
Proof.
  intros Hi.
  rewrite (send_receives this r typ command c c1 guard connected written).
  unfold receive, decodeHeader, conn_binary_Read, fails.
  unfold open in still_open. rewrite still_open, Hi. reflexivity.
Qed.

(** X8.  When the stream ends after fewer than twelve bytes, [send]
    returns [io.ErrUnexpectedEOF] if it ends inside a field of the header
    and [io.EOF] if it ends before the first field or between two
    fields. *)
Theorem header_truncated (bs : list byte) :
  incoming c1 = [Data bs] -> (List.length bs < 12)%nat ->
  send this r typ command
  = Returns (set_connection this (Some (set_incoming c1 [])),
             (None, Some (if (List.length bs mod 4 =? 0)%nat
                          then EOF else ErrUnexpectedEOF))).
Proof.
  intros Hi Hl.
  rewrite (send_receives this r typ command c c1 guard connected written).
  apply receive_truncated; assumption.
Qed.

End Header.

(** ** The packet returned *)

Lemma dropWhileEq_head (c : byte) (l : list byte) :
  match dropWhileEq c l with
  | b :: _ => Byte.eqb b c = false
  | [] => True
  end.
Proof.
  induction l as [|b l IH]; cbn [dropWhileEq]; [exact I|].
  destruct (Byte.eqb b c) eqn:E; [exact IH|exact E].
Qed.

Lemma dropWhileEq_length (c : byte) (l : list byte) :
  (List.length (dropWhileEq c l) <= List.length l)%nat.
Proof.
  induction l as [|b l IH]; cbn [dropWhileEq List.length]; [lia|].
  destruct (Byte.eqb b c); cbn [List.length]; lia.
Qed.

Lemma trimRightByte_trimmed (s : list byte) (c : byte) :
  hasSuffixByte (trimRightByte s c) c = false.
Proof.
  unfold hasSuffixByte, trimRightByte. rewrite rev_involutive.
  pose proof (dropWhileEq_head c (rev s)) as H.
  destruct (dropWhileEq c (rev s)); [reflexivity|exact H].
Qed.

Lemma trimRightByte_length (s : list byte) (c : byte) :
  (List.length (trimRightByte s c) <= List.length s)%nat.
Proof.
  unfold trimRightByte. rewrite length_rev.
  pose proof (dropWhileEq_length c (rev s)) as H.
  rewrite length_rev in H. exact H.
Qed.

Lemma assembled_body (h : header) (raw : list byte) :
  list_byte_of_string (Body (assembled h raw)) = trimRightByte raw x00.
Proof.
  unfold assembled, TrimRight, terminationSequence. cbn [Body].
  rewrite !list_byte_of_string_of_list_byte. reflexivity.
Qed.

(** A packet comes out of [evaluate] only as a header that mirrors the
    challenge, with the bytes read after it. *)
Lemma evaluate_packet (this : Client) (id : Z) (h : header) (c : Conn)
    (this' : Client) (p : Packet) (err : option error) :
  evaluate this id h c = Returns (this', (Some p, err)) ->
  exists raw,
    p = assembled h raw /\ challenge h = id
    /\ 0 <= sub (size h) packetHeaderSize
    /\ List.length raw = Z.to_nat (sub (size h) packetHeaderSize).
Proof.
  unfold evaluate, fails.
  destruct (challenge h =? id) eqn:Eid; [|discriminate].
  apply Z.eqb_eq in Eid. unfold make.
  destruct (_ <? 0) eqn:En; [discriminate|]. apply Z.ltb_ge in En.
  set (body := repeat x00 _).
  pose proof (conn_Read_spec c body) as Hr.
  destruct (conn_Read c body) as [[[n [e|]] body'] c']; [discriminate|].
  destruct (n =? List.length body)%nat; [|discriminate].
  intros H. injection H as <- <- <-. exists body'.
  destruct Hr as (Hl & _). unfold body in Hl. rewrite repeat_length in Hl.
  auto.
Qed.

(** The exchange after the write: it keeps the log of the bytes written,
    and a packet it returns comes out of the evaluation of a header. *)
Lemma receive_origin (this : Client) (typ id : Z) (c : Conn)
    (this' : Client) (res : results) :
  receive this typ id c = Returns (this', res) ->
  (exists c', this' = set_connection this (Some c') /\ sent c' = sent c)
  /\ (forall p, fst res = Some p ->
        exists h c2, evaluate this id h c2 = Returns (this', res)).
Proof.
  assert (He : forall h c0, sent c0 = sent c ->
             evaluate this id h c0 = Returns (this', res) ->
             (exists c', this' = set_connection this (Some c')
                         /\ sent c' = sent c)
             /\ (forall p, fst res = Some p ->
                   exists h c2, evaluate this id h c2 = Returns (this', res))).
  { intros h c0 Hs H. split; [|eauto]. revert H. unfold evaluate, fails.
    destruct (challenge h =? id);
      [|intros H; injection H as <- <-; eauto].
    destruct (make _) as [body|]; [|discriminate].
    pose proof (conn_Read_spec c0 body) as Hr.
    destruct (conn_Read c0 body) as [[[n [e|]] body'] c'];
      [|destruct (n =? _)%nat];
      intros H; injection H as <- <-; destruct Hr as (_ & _ & Hr);
      exists c'; split; congruence. }
  assert (Hf : forall c0 e, sent c0 = sent c ->
             fails this c0 (Some e) = Returns (this', res) ->
             (exists c', this' = set_connection this (Some c')
                         /\ sent c' = sent c)
             /\ (forall p, fst res = Some p ->
                   exists h c2, evaluate this id h c2 = Returns (this', res))).
  { intros c0 e Hs H. unfold fails in H. injection H as <- <-.
    split; [eauto|]. discriminate. }
  unfold receive, evaluate_next.
  pose proof (decodeHeader_spec c) as Hd.
  destruct (decodeHeader c) as [[h [e|]] c1]; [apply Hf, Hd|].
  destruct Hd as [_ Hd].
  destruct ((typ =? auth) && (headerType h =? responseValue));
    [|apply He, Hd].
  destruct (make _) as [buf|]; [|discriminate].
  pose proof (conn_Read_spec c1 buf) as Hr.
  destruct (conn_Read c1 buf) as [[[n e] buf'] c2].
  destruct Hr as (_ & _ & Hr).
  pose proof (decodeHeader_spec c2) as Hd2.
  destruct (decodeHeader c2) as [[h2 [e2|]] c3]; destruct Hd2 as [_ Hd2].
  - apply Hf. congruence.
  - apply He. congruence.
Qed.

Lemma send_origin (this : Client) (r : stream) (typ : Z) (command : string)
    (this' : Client) (p : Packet) (err : option error) :
  send this r typ command = Returns (this', (Some p, err)) ->
  exists h c2,
    evaluate this (request_id r) h c2 = Returns (this', (Some p, err)).
Proof.
  rewrite send_protocol_eq. unfold send_protocol.
  destruct (negb (typ =? auth) && negb (authorized this)); [discriminate|].
  destruct (connection this) as [c|]; [|discriminate].
  destruct (conn_Write c _) as [[n [e|]] c1]; [discriminate|].
  destruct (n =? _)%nat; [|discriminate].
  intros H. apply receive_origin in H. destruct H as [_ H].
  apply (H p). reflexivity.
Qed.

(** X9.  The body of every packet that [Authorize] or [Execute] returns
    does not end with a NUL byte, and it is no longer than the [size - 8]
    of the header returned with it, which is not negative. *)
Theorem returned_body_trimmed (this : Client) (r : stream) (s : string)
    (this' : Client) (p : Packet) (err : option error) :
  Authorize this r s = Returns (this', (Some p, err))
  \/ Execute this r s = Returns (this', (Some p, err)) ->
  hasSuffixByte (list_byte_of_string (Body p)) x00 = false
  /\ 0 <= body_length (Body p) <= sub (size (Header p)) packetHeaderSize.
Proof.
  assert (Hs : forall typ this1 e,
             send this r typ s = Returns (this1, (Some p, e)) ->
             hasSuffixByte (list_byte_of_string (Body p)) x00 = false
             /\ 0 <= body_length (Body p)
                <= sub (size (Header p)) packetHeaderSize).
  { intros typ this1 e H. apply send_origin in H.
    destruct H as (h & c2 & H). apply evaluate_packet in H.
    destruct H as (raw & -> & _ & Hn & Hl). unfold body_length.
    rewrite assembled_body. split; [apply trimRightByte_trimmed|].
    pose proof (trimRightByte_length raw x00). cbn [Header assembled]. lia. }
  intros [H|H].
  - unfold Authorize in H.
    destruct (send this r auth s) as [[this1 [resp1 err1]]|] eqn:E;
      [|discriminate].
    destruct err1 as [e|].
    + injection H as <- -> <-. exact (Hs _ _ _ E).
    + destruct resp1 as [q|]; [|discriminate].
      destruct (headerType (Header q) =? authResponse);
        [|discriminate].
      injection H as <- -> <-. exact (Hs _ _ _ E).
  - exact (Hs _ _ _ H).
Qed.




(** ** The life of a client *)

(** X11.  A client without a connection: [Authorize] panics on it, and so
    does [Execute] once the flag is set.  That is the state of a new
    client, and the state a [Connect] that fails leaves, whatever
    connection the client held before. *)
Theorem calls_without_connection :
  (forall this r s,
      connection this = None ->
      Authorize this r s = Panics
      /\ (authorized this = true -> Execute this r s = Panics))
  /\ (forall host port, connection (fst (NewClient host port)) = None)
  /\ (forall this e,
         Connect this (None, Some e)
         = (set_connection this None, Some e)).
Proof.
  split; [|split; reflexivity].
  intros this r s Hc. split.
  - unfold Authorize. rewrite send_authorized by (left; reflexivity).
    rewrite Hc. reflexivity.
  - intros Ha. unfold Execute. rewrite send_authorized by (right; exact Ha).
    rewrite Hc. reflexivity.
Qed.

(** X12.  When [Authorize] returns a nil error, the client is authorized
    and the packet returned is of type SERVERDATA_AUTH_RESPONSE and
    mirrors the challenge; on every other return of [Authorize] the flag
    is as before. *)
Theorem authorize_returns (this : Client) (r : stream) (password : string)
    (this' : Client) (response : option Packet) (err : option error) :
  Authorize this r password = Returns (this', (response, err)) ->
  (err = None ->
   authorized this' = true
   /\ exists p, response = Some p
                /\ headerType (Header p) = authResponse
                /\ challenge (Header p) = request_id r)
  /\ (err <> None -> authorized this' = authorized this).
Proof.
  unfold Authorize.
  destruct (send this r auth password) as [[this1 [resp1 err1]]|] eqn:E;
    [|discriminate].
  pose proof (send_keeps_authorized _ _ _ _ _ _ E) as Ha.
  destruct err1 as [e|].
  - intros H. injection H as <- <- <-. split; [discriminate|auto].
  - destruct resp1 as [p|]; [|discriminate].
    destruct (headerType (Header p) =? authResponse) eqn:Et;
      intros H; injection H as <- <- <-.
    + split; [|congruence]. intros _. split; [reflexivity|].
      exists p. apply Z.eqb_eq in Et. repeat split; [exact Et|].
      apply send_origin in E. destruct E as (h & c2 & E).
      apply evaluate_packet in E. destruct E as (raw & -> & Hid & _).
      exact Hid.
    + split; [discriminate|auto].
Qed.


(** ** Encoding and decoding *)

Lemma TrimRight_padding (B : string) (k : nat) :
  TrimRight (string_of_list_byte (list_byte_of_string B ++ repeat x00 k))
            terminationSequence
  = TrimRight B terminationSequence.
Proof.
  unfold TrimRight, terminationSequence.
  rewrite list_byte_of_string_of_list_byte, trimRightByte_repeat.
  reflexivity.
Qed.

Lemma TrimRight_fixed (B : string) :
  TrimRight B terminationSequence = B
  <-> hasSuffixByte (list_byte_of_string B) x00 = false.
Proof.
  unfold TrimRight, terminationSequence. split.
  - intros H. apply (f_equal list_byte_of_string) in H.
    rewrite list_byte_of_string_of_list_byte in H.
    rewrite <- H. apply trimRightByte_trimmed.
  - intros H. rewrite trimRightByte_no_suffix by exact H.
    apply string_of_list_byte_of_string.
Qed.

Lemma advance_nonempty (l : list byte) (tail : stream) :
  l <> [] -> advance l tail = Data l :: tail.
Proof. destruct l; [congruence|reflexivity]. Qed.

(** X14.  Whatever the body [B] of [N] bytes, with [N + 10] within the
    32-bit signed range: when the encoding of the packet built for [B]
    arrives in answer to an EXECCOMMAND request with the same challenge,
    [Execute] returns its header unchanged and, as body, [B] without its
    trailing NUL bytes; the body is [B] exactly when [B] does not end with
    a NUL byte. *)
Theorem round_trip_trims (this : Client) (r : stream) (command : string)
    (c : Conn) (typ : Z) (B : string) (tail : stream) :
  authorized this = true ->
  connection this = Some c -> open c -> writes c = [] ->
  incoming c = Data (payload_of (newPacket (request_id r) typ B)) :: tail ->
  in_range typ ->
  body_length B + 10 <= max_int ->
  exists this' p,
    Execute this r command = Returns (this', (Some p, None))
    /\ Header p = Header (newPacket (request_id r) typ B)
    /\ Body p = TrimRight B terminationSequence
    /\ (Body p = B <-> hasSuffixByte (list_byte_of_string B) x00 = false).
Proof.
  intros Ha Hc Ho Hw Hi Ht Hmax.
  set (h := Header (newPacket (request_id r) typ B)).
  set (raw := list_byte_of_string B ++ repeat x00 2).
  set (c1 := written_to c (payload_of (newPacket (request_id r) exec command))).
  assert (Hsz : size h = body_length B + 10) by (apply newPacket_size, Hmax).
  assert (Hb : 0 <= body_length B) by (unfold body_length; lia).
  assert (Hraw : raw <> []).
  { unfold raw. destruct (list_byte_of_string B); discriminate. }
  assert (Hd : decodeHeader c1 = (h, None, set_incoming c1 (Data raw :: tail))).
  { rewrite <- (advance_nonempty raw tail Hraw).
    replace h with (mkHeader (wrap32 (size h)) (wrap32 (challenge h))
                             (wrap32 (headerType h))).
    - apply decodeHeader_arrival; [exact Ho|].
      cbn [incoming c1 written_to]. rewrite Hi, payload_of_eq. reflexivity.
    - rewrite !wrap32_id; [reflexivity|exact Ht|apply request_id_in_range|].
      rewrite Hsz. unfold in_range, min_int, max_int, half in *. lia. }
  assert (Hplain : exec <> auth \/ headerType h <> responseValue)
    by (left; discriminate).
  pose proof (send_evaluates this r exec command c c1 _ h
                (or_intror Ha) Hc (conn_Write_complete c _ Ho Hw) Hd
                Hplain) as HS.
  assert (H1 : incoming (set_incoming c1 (Data raw :: tail))
               = Data (raw ++ []) :: tail).
  { cbn [incoming set_incoming]. rewrite app_nil_r. reflexivity. }
  assert (H2 : sub (size h) packetHeaderSize = Z.of_nat (List.length raw)).
  { rewrite Hsz. unfold sub, packetHeaderSize, raw.
    rewrite length_app, repeat_length.
    replace (body_length B + 10 - 8) with (body_length B + 2) by lia.
    rewrite wrap32_id; [unfold body_length; lia|].
    unfold in_range, min_int, max_int, half in *. lia. }
  pose proof (evaluate_arrival this (request_id r) h
                (set_incoming c1 (Data raw :: tail)) raw [] tail
                Ho H1 Hraw eq_refl H2) as HE.
  eexists. exists (assembled h raw).
  split; [unfold Execute; rewrite HS; exact HE|split; [reflexivity|]].
  assert (Hbody : Body (assembled h raw) = TrimRight B terminationSequence)
    by apply TrimRight_padding.
  split; [exact Hbody|]. rewrite Hbody. apply TrimRight_fixed.
Qed.

(** ** The acknowledgment before the reply to an AUTH *)

Lemma wire_arrival (c : Conn) (h : header) (b : list byte) (tail : stream) :
  open c -> header_in_range h ->
  incoming c = Data (wire h b) :: tail ->
  decodeHeader c = (h, None, set_incoming c (advance b tail)).
Proof.
  intros Ho (Hs & Hi & Ht) Hin. destruct h as [s i t].
  cbn [size challenge headerType] in *. unfold wire in Hin.
  cbn [size challenge headerType] in Hin.
  rewrite (decodeHeader_arrival c s i t b tail Ho Hin).
  rewrite !wrap32_id by assumption. reflexivity.
Qed.

Lemma wire_app (h : header) (raw more : list byte) :
  wire h raw ++ more = wire h (raw ++ more).
Proof. unfold wire. rewrite <- !app_assoc. reflexivity. Qed.

Lemma wire_nonempty (h : header) (raw : list byte) : wire h raw <> [].
Proof. unfold wire. discriminate. Qed.

Lemma receive_after_ack (this : Client) (id : Z) (c : Conn) (a h : header)
    (raw1 raw2 more : list byte) (tail : stream) :
  open c ->
  incoming c = Data (wire a raw1 ++ wire h raw2 ++ more) :: tail ->
  header_in_range a -> header_in_range h ->
  headerType a = responseValue ->
  sub (size a) packetHeaderSize = Z.of_nat (List.length raw1) ->
  raw1 <> [] ->
  challenge h = id ->
  sub (size h) packetHeaderSize = Z.of_nat (List.length raw2) ->
  raw2 <> [] ->
  receive this auth id c
  = Returns (set_connection this (Some (set_incoming c (advance more tail))),
             (Some (assembled h raw2), None)).
Proof.
  intros Ho Hi Ha Hh Hta Hs1 Hr1 Hid Hs2 Hr2.
  rewrite wire_app in Hi. unfold receive.
  rewrite (wire_arrival c a _ tail Ho Ha Hi). rewrite Hta.
  change ((auth =? auth) && (responseValue =? responseValue)) with true.
  cbv iota. rewrite Hs1, make_length by lia.
  rewrite advance_nonempty
    by (destruct raw1; [congruence|discriminate]).
  rewrite (conn_Read_arrival
             (set_incoming c (Data (raw1 ++ wire h raw2 ++ more) :: tail))
             raw1 (wire h raw2 ++ more) _ tail);
    [|exact Ho|reflexivity|exact Hr1|rewrite repeat_length; lia].
  rewrite set_incoming_twice, wire_app.
  rewrite advance_nonempty by apply wire_nonempty.
  unfold evaluate_next.
  rewrite (wire_arrival (set_incoming c (Data (wire h (raw2 ++ more)) :: tail))
             h (raw2 ++ more) tail Ho Hh eq_refl).
  rewrite set_incoming_twice.
  rewrite advance_nonempty
    by (destruct raw2; [congruence|discriminate]).
  rewrite (evaluate_arrival this id h
             (set_incoming c (Data (raw2 ++ more) :: tail)) raw2 more tail);
    [|exact Ho|reflexivity|exact Hr2|exact Hid|exact Hs2].
  rewrite set_incoming_twice. reflexivity.
Qed.

(** X15.  [Authorize] discards one acknowledgment of type
    SERVERDATA_RESPONSE_VALUE, whatever its id, and evaluates the packet
    that follows it whatever its type: a SERVERDATA_AUTH_RESPONSE that
    mirrors the challenge authorizes the client and is returned; a packet
    of any other type, and so a second acknowledgment, makes the call
    return [ErrFailedAuthorization], and what follows it stays unread. *)
Theorem authorize_after_acknowledgment (this : Client) (r : stream)
    (password : string) (c : Conn) (a h : header)
    (raw1 raw2 more : list byte) (tail : stream) :
  connection this = Some c -> open c -> writes c = [] ->
  incoming c = Data (wire a raw1 ++ wire h raw2 ++ more) :: tail ->
  header_in_range a -> header_in_range h ->
  headerType a = responseValue ->
  sub (size a) packetHeaderSize = Z.of_nat (List.length raw1) ->
  raw1 <> [] ->
  challenge h = request_id r ->
  sub (size h) packetHeaderSize = Z.of_nat (List.length raw2) ->
  raw2 <> [] ->
  Authorize this r password =
  let c' := set_incoming
              (written_to c (payload_of (newPacket (request_id r) auth
                                           password)))
              (advance more tail) in
  if headerType h =? authResponse then
    Returns (set_authorized (set_connection this (Some c')) true,
             (Some (assembled h raw2), None))
  else
    Returns (set_connection this (Some c'),
             (None, Some ErrFailedAuthorization)).
Proof.
  intros Hc Ho Hw Hi Ha Hh Hta Hs1 Hr1 Hid Hs2 Hr2.
  unfold Authorize. rewrite send_authorized by (left; reflexivity).
  rewrite Hc. cbv zeta. rewrite conn_Write_complete by assumption.
  rewrite Nat.eqb_refl.
  rewrite (receive_after_ack this (request_id r) _ a h raw1 raw2 more tail);
    try assumption.
  cbn [assembled Header]. reflexivity.
Qed.

(** ** The payload *)

(** X16.  The size field that [newPacket] places counts every byte of the
    payload that [compile] produces but the four of the size field
    itself, as long as the size fits an [int32]. *)
Theorem payload_length (id typ : Z) (B : string) :
  body_length B + 10 <= max_int ->
  Z.of_nat (List.length (payload_of (newPacket id typ B)))
  = size (Header (newPacket id typ B)) + 4.
Proof.
  intros H. rewrite newPacket_size by exact H. rewrite payload_of_eq.
  rewrite !length_app, !PutUint32_length. cbn [Body newPacket List.length].
  unfold body_length. lia.
Qed.

Lemma app_same_length (A : Type) (a b x y : list A) :
  List.length a = List.length b -> a ++ x = b ++ y -> a = b /\ x = y.
Proof.
  revert b. induction a as [|u a IH]; intros [|v b] Hl H;
    try discriminate; [auto|].
  cbn in Hl, H. injection H as -> H. injection Hl as Hl.
  destruct (IH b Hl H) as [-> ->]. auto.
Qed.

Lemma PutUint32_injective (v w : Z) :
  in_range v -> in_range w -> PutUint32 v = PutUint32 w -> v = w.
Proof.
  intros Hv Hw H. apply (f_equal (fun bs => wrap32 (Uint32 bs))) in H.
  rewrite !int32_round_trip in H by assumption. exact H.
Qed.

(** X17.  [compile] is injective on packets whose header fields are
    [int32] values: two packets with the same payload are the same
    packet. *)
Theorem compile_injective (p q : Packet) :
  header_in_range (Header p) -> header_in_range (Header q) ->
  compile p = compile q -> p = q.
Proof.
  intros (Hs & Hi & Ht) (Hs' & Hi' & Ht') H.
  rewrite !compile_eq in H. apply (f_equal fst) in H. cbn [fst] in H.
  apply app_same_length in H; [|reflexivity]. destruct H as [H1 H].
  apply app_same_length in H; [|reflexivity]. destruct H as [H2 H].
  apply app_same_length in H; [|reflexivity]. destruct H as [H3 H].
  apply app_inv_tail in H.
  apply PutUint32_injective in H1, H2, H3; try assumption.
  apply (f_equal string_of_list_byte) in H.
  rewrite !string_of_list_byte_of_string in H.
  destruct p as [[s i t] B], q as [[s' i' t'] B'].
  cbn [Header Body size challenge headerType] in *. congruence.
Qed.

(** ** Instances *)

Ltac concrete :=
  solve [ reflexivity | discriminate
        | left; reflexivity | right; reflexivity | left; discriminate
        | vm_compute; reflexivity | vm_compute; discriminate
        | repeat split; vm_compute; discriminate
        | repeat constructor; discriminate
        | cbn; lia ].

Lemma reply_returned_witness :
  send (authorized_client [Data (wire ok_header ok_raw)]) challenge7 exec
       "status"
  = Returns (set_connection (authorized_client [Data (wire ok_header ok_raw)])
               (Some (set_incoming (status_written [Data ok_raw])
                        (advance [] []))),
             (Some (assembled ok_header ok_raw), None)).
Proof.
  refine (reply_returned
            (authorized_client [Data (wire ok_header ok_raw)]) challenge7
            exec "status" (mkConn [Data (wire ok_header ok_raw)] [] [] 0)
            (status_written [Data (wire ok_header ok_raw)])
            (status_written [Data ok_raw]) ok_header
            _ _ _ _ _ ok_raw [] [] _ _ _ _ _); concrete.
Defined.

Lemma reply_body_in_pieces_witness :
  send (authorized_client [Data (wire ok_header ["o"%byte]);
                           Data ["k"%byte; x00; x00]])
       challenge7 exec "status"
  = Returns (set_connection
               (authorized_client [Data (wire ok_header ["o"%byte]);
                                   Data ["k"%byte; x00; x00]])
               (Some (set_incoming
                        (status_written [Data ["o"%byte];
                                         Data ["k"%byte; x00; x00]])
                        [Data ["k"%byte; x00; x00]])),
             (None, Some ErrInvalidRead)).
Proof.
  refine (reply_body_in_pieces
            (authorized_client [Data (wire ok_header ["o"%byte]);
                                Data ["k"%byte; x00; x00]]) challenge7
            exec "status"
            (mkConn [Data (wire ok_header ["o"%byte]);
                     Data ["k"%byte; x00; x00]] [] [] 0)
            (status_written [Data (wire ok_header ["o"%byte]);
                             Data ["k"%byte; x00; x00]])
            (status_written [Data ["o"%byte]; Data ["k"%byte; x00; x00]])
            ok_header _ _ _ _ _ ["o"%byte] [Data ["k"%byte; x00; x00]]
            _ _ _ _); concrete.
Defined.

Lemma reply_without_body_witness :
  send (authorized_client [Data (wire (mkHeader 8 7 responseValue) [])])
       challenge7 exec "status"
  = Returns (set_connection
               (authorized_client
                  [Data (wire (mkHeader 8 7 responseValue) [])])
               (Some (status_written [])),
             (Some (mkPacket (mkHeader 8 7 responseValue) ""), None)).
Proof.
  refine (reply_without_body
            (authorized_client [Data (wire (mkHeader 8 7 responseValue) [])])
            challenge7 exec "status"
            (mkConn [Data (wire (mkHeader 8 7 responseValue) [])] [] [] 0)
            (status_written [Data (wire (mkHeader 8 7 responseValue) [])])
            (status_written []) (mkHeader 8 7 responseValue)
            _ _ _ _ _ _ _ _); concrete.
Defined.

Lemma reply_panics_witness :
  send (authorized_client [Data (wire (mkHeader 7 7 responseValue) [])])
       challenge7 exec "status"
  = Panics.
Proof.
  refine (proj2 (reply_panics
            (authorized_client [Data (wire (mkHeader 7 7 responseValue) [])])
            challenge7 exec "status"
            (mkConn [Data (wire (mkHeader 7 7 responseValue) [])] [] [] 0)
            (status_written [Data (wire (mkHeader 7 7 responseValue) [])])
            (status_written []) (mkHeader 7 7 responseValue)
            _ _ _ _ _) _); concrete.
Defined.

Lemma write_failure_witness :
  send (mkClient "localhost" 27015 true
          (Some (mkConn [] [WritePart 3 None] [] 0)))
       challenge7 exec "status"
  = Returns (set_connection
               (mkClient "localhost" 27015 true
                  (Some (mkConn [] [WritePart 3 None] [] 0)))
               (Some (mkConn [] [] [[x10; x00; x00]] 0)),
             (None, Some ErrInvalidWrite))
  /\ incoming (mkConn [] [] [[x10; x00; x00]] 0)
     = incoming (mkConn [] [WritePart 3 None] [] 0).
Proof.
  refine (write_failure
            (mkClient "localhost" 27015 true
               (Some (mkConn [] [WritePart 3 None] [] 0)))
            challenge7 exec "status"
            (mkConn [] [WritePart 3 None] [] 0)
            (mkConn [] [] [[x10; x00; x00]] 0) 3 None _ _ _ _);
    concrete.
Defined.

Lemma header_in_pieces_witness :
  send (authorized_client
          [Data [x0c; x00; x00; x00; x07]; Data [x00; x00];
           Data [x00; x00; x00; x00; x00]; Data ok_raw])
       challenge7 exec "status"
  = evaluate (authorized_client
                [Data [x0c; x00; x00; x00; x07]; Data [x00; x00];
                 Data [x00; x00; x00; x00; x00]; Data ok_raw])
             (request_id challenge7) ok_header
             (set_incoming
                (status_written
                   [Data [x0c; x00; x00; x00; x07]; Data [x00; x00];
                    Data [x00; x00; x00; x00; x00]; Data ok_raw])
                [Data ok_raw]).
Proof.
  refine (header_in_pieces
            (authorized_client
               [Data [x0c; x00; x00; x00; x07]; Data [x00; x00];
                Data [x00; x00; x00; x00; x00]; Data ok_raw])
            challenge7 exec "status"
            (mkConn [Data [x0c; x00; x00; x00; x07]; Data [x00; x00];
                     Data [x00; x00; x00; x00; x00]; Data ok_raw] [] [] 0)
            (status_written
               [Data [x0c; x00; x00; x00; x07]; Data [x00; x00];
                Data [x00; x00; x00; x00; x00]; Data ok_raw])
            _ _ _ _ ok_header
            [[x0c; x00; x00; x00; x07]; [x00; x00];
             [x00; x00; x00; x00; x00]]
            [Data ok_raw] _ _ _ _ _); concrete.
Defined.

Lemma header_read_error_witness :
  send (authorized_client [Broken (ErrNet 104)]) challenge7 exec "status"
  = Returns (set_connection (authorized_client [Broken (ErrNet 104)])
               (Some (set_incoming (status_written [Broken (ErrNet 104)])
                        [])),
             (None, Some (ErrNet 104))).
Proof.
  refine (header_read_error
            (authorized_client [Broken (ErrNet 104)]) challenge7 exec
            "status" (mkConn [Broken (ErrNet 104)] [] [] 0)
            (status_written [Broken (ErrNet 104)]) _ _ _ _
            (ErrNet 104) [] _); concrete.
Defined.

Lemma header_truncated_witness :
  send (authorized_client [Data [x0c; x00]]) challenge7 exec "status"
  = Returns (set_connection (authorized_client [Data [x0c; x00]])
               (Some (set_incoming (status_written [Data [x0c; x00]]) [])),
             (None, Some ErrUnexpectedEOF)).
Proof.
  refine (header_truncated
            (authorized_client [Data [x0c; x00]]) challenge7 exec "status"
            (mkConn [Data [x0c; x00]] [] [] 0)
            (status_written [Data [x0c; x00]]) _ _ _ _
            [x0c; x00] _ _); concrete.
Defined.

Lemma returned_body_trimmed_witness :
  hasSuffixByte (list_byte_of_string (Body (assembled ok_header ok_raw))) x00
  = false
  /\ 0 <= body_length (Body (assembled ok_header ok_raw))
     <= sub (size (Header (assembled ok_header ok_raw))) packetHeaderSize.
Proof.
  refine (returned_body_trimmed
            (authorized_client [Data (wire ok_header ok_raw)]) challenge7
            "status"
            (set_connection (authorized_client [Data (wire ok_header ok_raw)])
               (Some (status_written [])))
            (assembled ok_header ok_raw) None _).
  right. vm_compute. reflexivity.
Defined.


Lemma calls_without_connection_witness :
  Authorize (fst (NewClient "localhost" 27015)) challenge7 "pw" = Panics
  /\ (authorized (fst (NewClient "localhost" 27015)) = true ->
      Execute (fst (NewClient "localhost" 27015)) challenge7 "pw" = Panics).
Proof.
  refine (proj1 calls_without_connection
            (fst (NewClient "localhost" 27015)) challenge7 "pw"%string _).
  reflexivity.
Defined.

Lemma authorize_returns_witness :
  (@None error = None ->
   authorized (set_authorized after_exchange true) = true
   /\ exists p, Some (newPacket 7 authResponse "") = Some p
                /\ headerType (Header p) = authResponse
                /\ challenge (Header p) = request_id challenge7)
  /\ (@None error <> None ->
      authorized (set_authorized after_exchange true)
      = authorized (quirk_client 7)).
Proof.
  refine (authorize_returns (quirk_client 7) challenge7 "pw"
            (set_authorized after_exchange true)
            (Some (newPacket 7 authResponse "")) None _).
  vm_compute. reflexivity.
Defined.


Lemma round_trip_trims_witness :
  exists this' p,
    Execute (echo 7 responseValue body_with_NUL) challenge7 "status"
    = Returns (this', (Some p, None))
    /\ Header p = Header (newPacket (request_id challenge7) responseValue
                            body_with_NUL)
    /\ Body p = TrimRight body_with_NUL terminationSequence
    /\ (Body p = body_with_NUL
        <-> hasSuffixByte (list_byte_of_string body_with_NUL) x00 = false).
Proof.
  refine (round_trip_trims (echo 7 responseValue body_with_NUL) challenge7
            "status"
            (mkConn [Data (payload_of (newPacket 7 responseValue
                                         body_with_NUL))] [] [] 0)
            responseValue body_with_NUL [] _ _ _ _ _ _ _); concrete.
Defined.

Lemma authorize_after_acknowledgment_witness :
  Authorize (quirk_client 7) challenge7 "pw"
  = Returns (set_authorized
               (set_connection (quirk_client 7)
                  (Some (set_incoming
                           (written_to (fresh_connection (auth_replies 7))
                              (payload_of (newPacket (request_id challenge7)
                                             auth "pw")))
                           (advance [] []))))
               true,
             (Some (assembled (mkHeader 10 7 authResponse) [x00; x00]),
              None)).
Proof.
  refine (authorize_after_acknowledgment (quirk_client 7) challenge7 "pw"
            (fresh_connection (auth_replies 7))
            (mkHeader 10 7 responseValue) (mkHeader 10 7 authResponse)
            [x00; x00] [x00; x00] [] [] _ _ _ _ _ _ _ _ _ _ _ _); concrete.
Defined.

Lemma payload_length_witness :
  Z.of_nat (List.length (payload_of (newPacket 7 auth "pw")))
  = size (Header (newPacket 7 auth "pw")) + 4.
Proof.
  refine (payload_length 7 auth "pw" _). concrete.
Defined.

Lemma compile_injective_witness :
  newPacket 7 auth "pw" = mkPacket (mkHeader 12 7 3) "pw".
Proof.
  refine (compile_injective (newPacket 7 auth "pw")
            (mkPacket (mkHeader 12 7 3) "pw") _ _ _); concrete.
Defined.
